(** * QR payload encoder of quantum_river_ui

    A shallow embedding of [generateQRData] and of the history update of
    [handleGenerate] (both in the [App] component), together with the parts of the
    JavaScript run time they rest on: strings as sequences of UTF-16 code
    units, the loosely typed [data] object, [String.prototype.startsWith],
    template literals, truthiness and [encodeURIComponent]. *)

From Stdlib Require Import NArith Ascii String.
From stdpp Require Import base option list strings gmap.

Local Open Scope N_scope.

(** ** JavaScript strings *)

(** A JavaScript string is a finite sequence of 16-bit code units, here
    the numbers below [2^16]; a property that relies on the bound states
    it. *)
Abbreviation jsstring := (list N).

(** An ASCII source literal, as the code units it denotes. *)
Definition lit (s : string) : jsstring :=
  N_of_ascii <$> list_ascii_of_string s.

(** [String.prototype.startsWith(searchString)] with the default position 0:
    the code units of [search] are compared, one by one and exactly, with
    the first code units of [s]. *)
Fixpoint startsWith (s search : jsstring) {struct search} : bool :=
  match search, s with
  | [], _ => true
  | _ :: _, [] => false
  | c :: search', x :: s' => if decide (x = c) then startsWith s' search' else false
  end.

(** ** Percent-encoding: [encodeURIComponent] (ECMA-262, [Encode]) *)

Definition in_range (lo hi c : N) : bool := (lo <=? c) && (c <=? hi).

Definition isLeadingSurrogate (c : N) : bool := in_range 0xD800 0xDBFF c.
Definition isTrailingSurrogate (c : N) : bool := in_range 0xDC00 0xDFFF c.

(** The characters [encodeURIComponent] leaves alone: ASCII letters, decimal
    digits and the marks [- _ . ! ~ * ' ( )]. *)
Definition uriMark : list N := lit "-_.!~*'()".

Definition uriUnescaped (c : N) : bool :=
  in_range 0x41 0x5A c || in_range 0x61 0x7A c || in_range 0x30 0x39 c
  || bool_decide (c ∈ uriMark).

Definition UTF16SurrogatePairToCodePoint (lead trail : N) : N :=
  (lead - 0xD800) * 0x400 + (trail - 0xDC00) + 0x10000.

(** The UTF-8 octets of a code point. *)
Definition utf8 (cp : N) : list N :=
  if cp <? 0x80 then [cp]
  else if cp <? 0x800 then
    [N.lor 0xC0 (N.shiftr cp 6); N.lor 0x80 (N.land cp 0x3F)]
  else if cp <? 0x10000 then
    [N.lor 0xE0 (N.shiftr cp 12);
     N.lor 0x80 (N.land (N.shiftr cp 6) 0x3F);
     N.lor 0x80 (N.land cp 0x3F)]
  else
    [N.lor 0xF0 (N.shiftr cp 18);
     N.lor 0x80 (N.land (N.shiftr cp 12) 0x3F);
     N.lor 0x80 (N.land (N.shiftr cp 6) 0x3F);
     N.lor 0x80 (N.land cp 0x3F)].

Definition hexDigit (d : N) : N :=
  if d <? 10 then 0x30 + d else 0x41 + (d - 10).

(** One octet as [%XX], upper-case hexadecimal, two digits. *)
Definition percent (octet : N) : jsstring :=
  [0x25; hexDigit (octet / 16); hexDigit (octet mod 16)].

Definition escape (cp : N) : jsstring := utf8 cp ≫= percent.

(** [Encode(string, "")]: [None] stands for the [URIError] that is thrown
    when the string holds a surrogate code unit that is not part of a
    pair. *)
Fixpoint Encode (s : jsstring) : option jsstring :=
  match s with
  | [] => Some []
  | c :: rest =>
    if uriUnescaped c then (c ::.) <$> Encode rest
    else if isTrailingSurrogate c then None
    else if isLeadingSurrogate c then
      match rest with
      | c2 :: rest' =>
        if isTrailingSurrogate c2
        then (escape (UTF16SurrogatePairToCodePoint c c2) ++.) <$> Encode rest'
        else None
      | [] => None
      end
    else (escape c ++.) <$> Encode rest
  end.

(** [String.prototype.isWellFormed]: no surrogate outside a pair. *)
Fixpoint isWellFormed (s : jsstring) : bool :=
  match s with
  | [] => true
  | c :: rest =>
    if isTrailingSurrogate c then false
    else if isLeadingSurrogate c then
      match rest with
      | c2 :: rest' => isTrailingSurrogate c2 && isWellFormed rest'
      | [] => false
      end
    else isWellFormed rest
  end.

(** ** Values, objects and completions *)

(** The values a field of one of the six forms can hold. *)
Inductive value : Type :=
  | Undefined
  | Str (s : jsstring)
  | Bool (b : bool).

Inductive exn : Type := TypeError | URIError.

(** The outcome of evaluating an expression: a value or a thrown error. *)
Inductive completion (A : Type) : Type :=
  | Return (a : A)
  | Throw (e : exn).
Arguments Return {A} a.
Arguments Throw {A} e.

Definition bind {A B} (m : completion A) (k : A → completion B) : completion B :=
  match m with
  | Return a => k a
  | Throw e => Throw e
  end.

Notation "'let!' x ':=' m 'in' k" := (bind m (fun x => k))
  (at level 10, x name, m at level 100, k at level 200).

Definition ToBoolean (v : value) : bool :=
  match v with
  | Undefined => false
  | Str s => negb (bool_decide (s = []))
  | Bool b => b
  end.

(** [ToString], as applied by a template literal to each substitution. *)
Definition ToString (v : value) : jsstring :=
  match v with
  | Undefined => lit "undefined"
  | Str s => s
  | Bool true => lit "true"
  | Bool false => lit "false"
  end.

(** [a || b] *)
Definition or_else (a b : value) : value := if ToBoolean a then a else b.

(** Property read [data.k]: a missing property reads as [undefined]. *)
Definition get (data : gmap string value) (k : string) : value :=
  default Undefined (data !! k).

(** The method call [v.startsWith(search)]: only a string has the method. *)
Definition call_startsWith (v : value) (search : jsstring) : completion bool :=
  match v with
  | Str s => Return (startsWith s search)
  | _ => Throw TypeError
  end.

Definition encodeURIComponent (v : value) : completion jsstring :=
  match Encode (ToString v) with
  | Some r => Return r
  | None => Throw URIError
  end.

(** The line break [\n] of the vCard template. *)
Definition nl : jsstring := [0x0A].

(** ** [generateQRData] *)

Definition generateQRData (type : jsstring) (data : gmap string value)
  : completion value :=
  if decide (type = lit "url") then
    let url := get data "url" in
    let! noProtocol :=
      (let! http := call_startsWith url (lit "http://") in
       if negb http
       then (let! https := call_startsWith url (lit "https://") in
             Return (negb https))
       else Return false) in
    if noProtocol
    then Return (Str (lit "https://" ++ ToString url))
    else Return url
  else if decide (type = lit "wifi") then
    Return (Str (lit "WIFI:T:" ++ ToString (get data "security")
                 ++ lit ";S:" ++ ToString (get data "ssid")
                 ++ lit ";P:" ++ ToString (or_else (get data "password") (Str []))
                 ++ lit ";H:"
                 ++ ToString (if ToBoolean (get data "hidden")
                              then Str (lit "true") else Str (lit "false"))
                 ++ lit ";;"))
  else if decide (type = lit "contact") then
    Return (Str (lit "BEGIN:VCARD" ++ nl ++ lit "VERSION:3.0" ++ nl
                 ++ lit "FN:" ++ ToString (get data "firstName") ++ lit " "
                 ++ ToString (or_else (get data "lastName") (Str []))
                 ++ nl ++ lit "ORG:"
                 ++ ToString (or_else (get data "organization") (Str []))
                 ++ nl ++ lit "TEL:"
                 ++ ToString (or_else (get data "phone") (Str []))
                 ++ nl ++ lit "EMAIL:"
                 ++ ToString (or_else (get data "email") (Str []))
                 ++ nl ++ lit "URL:"
                 ++ ToString (or_else (get data "url") (Str []))
                 ++ nl ++ lit "END:VCARD"))
  else if decide (type = lit "text") then
    Return (get data "text")
  else if decide (type = lit "email") then
    let email := ToString (get data "email") in
    let! subject := encodeURIComponent (or_else (get data "subject") (Str [])) in
    let! body := encodeURIComponent (or_else (get data "body") (Str [])) in
    Return (Str (lit "mailto:" ++ email ++ lit "?subject=" ++ subject
                 ++ lit "&body=" ++ body))
  else if decide (type = lit "sms") then
    let phone := ToString (get data "phone") in
    let! tail :=
      (if ToBoolean (get data "message")
       then (let! message := encodeURIComponent (get data "message") in
             Return (lit "?body=" ++ message))
       else Return []) in
    Return (Str (lit "sms:" ++ phone ++ tail))
  else
    Return (Str []).

(** ** The field sets of the six forms

    One record per schema ([urlSchema], [wifiSchema], [contactSchema],
    [textSchema], [emailSchema], [smsSchema]); a field declared
    [.optional()] is an [option], and [data] is the object the form hands
    to [generateQRData], an absent optional field being a missing
    property. *)

Definition field (k : string) (v : option value) : list (string * value) :=
  match v with
  | Some v => [(k, v)]
  | None => []
  end.

Module Url.
Record t := { url : jsstring }.
Definition data (f : t) : gmap string value :=
  list_to_map [("url", Str (url f))].
End Url.

Module Wifi.
Inductive Security := WPA | WEP | nopass.
Definition name (s : Security) : jsstring :=
  match s with
  | WPA => lit "WPA"
  | WEP => lit "WEP"
  | nopass => lit "nopass"
  end.
Record t := {
  ssid : jsstring;
  password : option jsstring;
  security : Security;
  hidden : option bool
}.
Definition data (f : t) : gmap string value :=
  list_to_map ([("ssid", Str (ssid f)); ("security", Str (name (security f)))]
               ++ field "password" (Str <$> password f)
               ++ field "hidden" (Bool <$> hidden f)).
End Wifi.

Module Contact.
Record t := {
  firstName : jsstring;
  lastName : option jsstring;
  phone : option jsstring;
  email : option jsstring;
  organization : option jsstring;
  url : option jsstring
}.
Definition data (f : t) : gmap string value :=
  list_to_map ([("firstName", Str (firstName f))]
               ++ field "lastName" (Str <$> lastName f)
               ++ field "phone" (Str <$> phone f)
               ++ field "email" (Str <$> email f)
               ++ field "organization" (Str <$> organization f)
               ++ field "url" (Str <$> url f)).
End Contact.

Module Text.
Record t := { text : jsstring }.
Definition data (f : t) : gmap string value :=
  list_to_map [("text", Str (text f))].
End Text.

Module Email.
Record t := {
  email : jsstring;
  subject : option jsstring;
  body : option jsstring
}.
Definition data (f : t) : gmap string value :=
  list_to_map ([("email", Str (email f))]
               ++ field "subject" (Str <$> subject f)
               ++ field "body" (Str <$> body f)).
End Email.

Module Sms.
Record t := {
  phone : jsstring;
  message : option jsstring
}.
Definition data (f : t) : gmap string value :=
  list_to_map ([("phone", Str (phone f))]
               ++ field "message" (Str <$> message f)).
End Sms.

(** [smsSchema]: [phone] a string of at least one code unit, [message] a
    string or absent. *)
Definition smsSchema (data : gmap string value) : bool :=
  match get data "phone" with
  | Str s => bool_decide (1 ≤ length s)%nat
  | _ => false
  end
  && match get data "message" with
     | Undefined | Str _ => true
     | Bool _ => false
     end.

(** The tagged union of the six field sets, and the encoder on it. *)
Inductive Payload : Type :=
  | PUrl (f : Url.t)
  | PWifi (f : Wifi.t)
  | PContact (f : Contact.t)
  | PText (f : Text.t)
  | PEmail (f : Email.t)
  | PSms (f : Sms.t).

Definition tag (p : Payload) : jsstring :=
  match p with
  | PUrl _ => lit "url"
  | PWifi _ => lit "wifi"
  | PContact _ => lit "contact"
  | PText _ => lit "text"
  | PEmail _ => lit "email"
  | PSms _ => lit "sms"
  end.

Definition fields (p : Payload) : gmap string value :=
  match p with
  | PUrl f => Url.data f
  | PWifi f => Wifi.data f
  | PContact f => Contact.data f
  | PText f => Text.data f
  | PEmail f => Email.data f
  | PSms f => Sms.data f
  end.

Definition encode (p : Payload) : completion value :=
  generateQRData (tag p) (fields p).

(** The value an optional text field contributes to a template:
    [data.k || ""]. *)
Definition orEmpty (o : option jsstring) : jsstring := default [] o.

(** The text of the hidden flag in the Wifi template. *)
Definition hiddenText (h : option bool) : jsstring :=
  if default false h then lit "true" else lit "false".

(** Feeding the result of a Text encoding back in as the [text] field. *)
Definition reencodeText (r : completion value) : completion value :=
  let! out := r in generateQRData (lit "text") (list_to_map [("text", out)]).

(** The six tags with a [case] of their own. *)
Definition knownTypes : list jsstring :=
  [lit "url"; lit "wifi"; lit "contact"; lit "text"; lit "email"; lit "sms"].

(** The properties of [data] each [case] reads. *)
Definition propertiesRead (type : jsstring) : list string :=
  if decide (type = lit "url") then ["url"]
  else if decide (type = lit "wifi") then ["security"; "ssid"; "password"; "hidden"]
  else if decide (type = lit "contact") then
    ["firstName"; "lastName"; "organization"; "phone"; "email"; "url"]
  else if decide (type = lit "text") then ["text"]
  else if decide (type = lit "email") then ["email"; "subject"; "body"]
  else if decide (type = lit "sms") then ["phone"; "message"]
  else [].

(** The strings a payload hands to [encodeURIComponent]. *)
Definition percentEncoded (p : Payload) : list jsstring :=
  match p with
  | PEmail f => [orEmpty (Email.subject f); orEmpty (Email.body f)]
  | PSms f => [orEmpty (Sms.message f)]
  | _ => []
  end.

(** ** The history of generated codes: [handleGenerate] *)

(** The records of [types/qr.ts]. *)
Module QR.
Inductive ErrorCorrectionLevel := L | M | Q | H.

Record Options := {
  size : N;
  errorCorrectionLevel : ErrorCorrectionLevel;
  foregroundColor : jsstring;
  backgroundColor : jsstring;
  margin : N
}.

Record Generated := {
  id : jsstring;
  type : jsstring;
  data : value;
  dataUrl : jsstring;
  options : Options
}.
End QR.

(** The component state [handleGenerate] reads and sets. *)
Record App := {
  qrOptions : QR.Options;
  generatedQRs : list QR.Generated;
  currentQR : jsstring
}.

(** What one run of [handleGenerate] gets from outside the component:
    the verdict of [form.trigger()], the values of [form.getValues()],
    the renderer behind [generateQR] (a data URL, or a rejection) and
    [Date.now().toString()]. *)
Record Run := {
  isValid : bool;
  formData : gmap string value;
  generateQR : value → option jsstring;
  now : jsstring
}.

(** [handleGenerate(type)]: the state after the run. A failed validation,
    an exception and a rejected [generateQR] all leave the state as it
    was; [forms[type]] is [undefined] for an unknown tag, and the call of
    [trigger] on it throws. *)
Definition handleGenerate (type : jsstring) (r : Run) (st : App) : App :=
  if decide (type ∈ knownTypes) then
    if isValid r then
      match generateQRData type (formData r) with
      | Return qrData =>
        match generateQR r qrData with
        | Some dataUrl =>
          let newQR := {| QR.id := now r; QR.type := type; QR.data := qrData;
                          QR.dataUrl := dataUrl; QR.options := qrOptions st |} in
          {| qrOptions := qrOptions st;
             currentQR := dataUrl;
             generatedQRs := newQR :: take 9 (generatedQRs st) |}
        | None => st
        end
      | Throw _ => st
      end
    else st
  else st.

(** The state as the component starts, and a history that is full. *)
Definition initialOptions : QR.Options :=
  {| QR.size := 256; QR.errorCorrectionLevel := QR.M;
     QR.foregroundColor := lit "#000000"; QR.backgroundColor := lit "#ffffff";
     QR.margin := 4 |}.

Definition olderQR : QR.Generated :=
  {| QR.id := lit "1699999999999"; QR.type := lit "url";
     QR.data := Str (lit "https://example.com");
     QR.dataUrl := lit "data:image/png;base64,AAAA";
     QR.options := initialOptions |}.

Definition fullHistory : App :=
  {| qrOptions := initialOptions;
     generatedQRs := replicate 10 olderQR;
     currentQR := lit "data:image/png;base64,AAAA" |}.

Definition textRun : Run :=
  {| isValid := true;
     formData := Text.data {| Text.text := lit "hi" |};
     generateQR := λ _, Some (lit "data:image/png;base64,BBBB");
     now := lit "1700000000000" |}.

(** A sequence of runs, one after the other. *)
Definition runs (l : list (jsstring * Run)) (st : App) : App :=
  foldl (λ st '(ty, r), handleGenerate ty r st) st l.

(** The entry a run adds to the history when it succeeds, for the options
    in force. *)
Definition produced (opts : QR.Options) (run : jsstring * Run)
  : option QR.Generated :=
  let '(ty, r) := run in
  if decide (ty ∈ knownTypes) then
    if isValid r then
      match generateQRData ty (formData r) with
      | Return qrData =>
        (λ dataUrl, {| QR.id := now r; QR.type := ty; QR.data := qrData;
                       QR.dataUrl := dataUrl; QR.options := opts |})
          <$> generateQR r qrData
      | Throw _ => None
      end
    else None
  else None.

(** The preview shows the newest entry of the history, or nothing while
    the history is empty. *)
Definition previewIsNewest (st : App) : Prop :=
  match generatedQRs st with
  | [] => currentQR st = []
  | qr :: _ => currentQR st = QR.dataUrl qr
  end.

(** The state of the component when it is mounted. *)
Definition initialApp : App :=
  {| qrOptions := initialOptions; generatedQRs := []; currentQR := [] |}.

(** What a percent-encoded string is made of: characters that are never
    escaped, and the percent sign. *)
Definition isEncoded (c : N) : Prop := uriUnescaped c = true ∨ c = 0x25.

(** Code units are 16 bits wide. *)
Definition isCodeUnit (c : N) : Prop := c < 0x10000.

(** ** Bulk upload: [handleCSVUpload] *)

(** [String.prototype.split(separator)] for a separator of one code unit,
    as in [text.split("\n")] and [line.split(",")]. The result is never
    empty: the empty string splits into one empty piece. *)
Fixpoint split (sep : N) (s : jsstring) : list jsstring :=
  match s with
  | [] => [[]]
  | c :: s' =>
    if decide (c = sep) then [] :: split sep s'
    else match split sep s' with
         | piece :: pieces => (c :: piece) :: pieces
         | [] => [[c]]
         end
  end.

(** [Array.prototype.join(separator)] on an array of strings. *)
Fixpoint join (sep : jsstring) (pieces : list jsstring) : jsstring :=
  match pieces with
  | [] => []
  | [piece] => piece
  | piece :: pieces' => piece ++ sep ++ join sep pieces'
  end.

(** The code units [String.prototype.trim] strips: ECMA-262 [WhiteSpace]
    and [LineTerminator]. *)
Definition isWhiteSpace (c : N) : bool :=
  bool_decide (c ∈ [0x09; 0x0A; 0x0B; 0x0C; 0x0D; 0x20; 0xA0; 0x1680; 0x2028;
                    0x2029; 0x202F; 0x205F; 0x3000; 0xFEFF])
  || in_range 0x2000 0x200A c.

Fixpoint trimStart (s : jsstring) : jsstring :=
  match s with
  | [] => []
  | c :: s' => if isWhiteSpace c then trimStart s' else s
  end.

Definition trimEnd (s : jsstring) : jsstring := reverse (trimStart (reverse s)).

Definition trim (s : jsstring) : jsstring := trimEnd (trimStart s).

(** What one upload gets from outside the component: the text of the
    selected file if there is one, the renderer behind [generateQR] and,
    for the row at each position, [Date.now().toString() + Math.random()]. *)
Record Upload := {
  file : option jsstring;
  render : jsstring → option jsstring;
  rowId : nat → jsstring
}.

(** [text.split("\n").filter((line) => line.trim())] *)
Definition csvLines (text : jsstring) : list jsstring :=
  filter (λ line, trim line ≠ []) (split 0x0A text).

(** [const [type, ...dataParts] = line.split(",")] and
    [dataParts.join(",").trim()] *)
Definition csvRow (line : jsstring) : jsstring * jsstring :=
  match split 0x2C line with
  | type :: dataParts => (type, trim (join (lit ",") dataParts))
  | [] => ([], [])
  end.

(** The body of the loop for one line: the entry pushed, if any. *)
Definition csvEntry (opts : QR.Options) (u : Upload) (i : nat) (line : jsstring)
  : option QR.Generated :=
  let '(type, data) := csvRow line in
  if bool_decide (data = []) then None
  else (λ dataUrl, {| QR.id := rowId u i; QR.type := type; QR.data := Str data;
                      QR.dataUrl := dataUrl; QR.options := opts |})
         <$> render u data.

(** The loop over [lines.slice(1)], [i] counting the lines gone through. *)
Fixpoint csvLoop (opts : QR.Options) (u : Upload) (i : nat)
    (lines : list jsstring) (batchQRs : list QR.Generated) : list QR.Generated :=
  match lines with
  | [] => batchQRs
  | line :: lines' =>
    csvLoop opts u (S i) lines'
      match csvEntry opts u i line with
      | Some qr => batchQRs ++ [qr]
      | None => batchQRs
      end
  end.

Definition csvBatch (opts : QR.Options) (u : Upload) (text : jsstring)
  : list QR.Generated :=
  csvLoop opts u 0 (drop 1 (csvLines text)) [].

Definition handleCSVUpload (u : Upload) (st : App) : App :=
  match file u with
  | None => st
  | Some text =>
    {| qrOptions := qrOptions st;
       currentQR := currentQR st;
       generatedQRs := csvBatch (qrOptions st) u text ++ generatedQRs st |}
  end.

(** An upload whose renderer accepts everything. *)
Definition uploadOf (text : jsstring) : Upload :=
  {| file := Some text;
     render := λ _, Some (lit "data:image/png;base64,CCCC");
     rowId := λ _, lit "1700000000001" |}.

(** A file of a header and [n] rows. *)
Definition csvOfRows (n : nat) : jsstring :=
  join [0x0A] (lit "type,data" :: replicate n (lit "text,hi")).

(** ** Validation: the schemas *)

(** Regular expressions without captures, and [RegExp.prototype.test] for
    a pattern anchored at both ends, by derivatives. *)
Inductive regex : Type :=
  | Never
  | Eps
  | Class (p : N → bool)
  | Seq (r1 r2 : regex)
  | Alt (r1 r2 : regex)
  | Star (r : regex).

(** [r?] *)
Definition Opt (r : regex) : regex := Alt r Eps.

Fixpoint nullable (r : regex) : bool :=
  match r with
  | Never => false
  | Eps => true
  | Class _ => false
  | Seq r1 r2 => nullable r1 && nullable r2
  | Alt r1 r2 => nullable r1 || nullable r2
  | Star _ => true
  end.

Fixpoint deriv (c : N) (r : regex) : regex :=
  match r with
  | Never => Never
  | Eps => Never
  | Class p => if p c then Eps else Never
  | Seq r1 r2 =>
    if nullable r1 then Alt (Seq (deriv c r1) r2) (deriv c r2)
    else Seq (deriv c r1) r2
  | Alt r1 r2 => Alt (deriv c r1) (deriv c r2)
  | Star r1 => Seq (deriv c r1) (Star r1)
  end.

Fixpoint test (r : regex) (s : jsstring) : bool :=
  match s with
  | [] => nullable r
  | c :: s' => test (deriv c r) s'
  end.

(** The strings a regular expression denotes. *)
Inductive matches : regex → jsstring → Prop :=
  | matches_Eps : matches Eps []
  | matches_Class p c : p c = true → matches (Class p) [c]
  | matches_Seq r1 r2 s1 s2 :
      matches r1 s1 → matches r2 s2 → matches (Seq r1 r2) (s1 ++ s2)
  | matches_Alt_l r1 r2 s : matches r1 s → matches (Alt r1 r2) s
  | matches_Alt_r r1 r2 s : matches r2 s → matches (Alt r1 r2) s
  | matches_Star_nil r : matches (Star r) []
  | matches_Star_app r s1 s2 :
      matches r s1 → matches (Star r) s2 → matches (Star r) (s1 ++ s2).

(** [[a-zA-Z0-9]], [[a-zA-Z0-9-]] and [\.] *)
Definition isAlnum (c : N) : bool :=
  in_range 0x61 0x7A c || in_range 0x41 0x5A c || in_range 0x30 0x39 c.

Definition isAlnumDash (c : N) : bool := isAlnum c || bool_decide (c = 0x2D).

Definition isDot (c : N) : bool := bool_decide (c = 0x2E).

(** [[a-zA-Z0-9]([a-zA-Z0-9-]*[a-zA-Z0-9])?] *)
Definition labelPattern : regex :=
  Seq (Class isAlnum) (Opt (Seq (Star (Class isAlnumDash)) (Class isAlnum))).

(** [domainPattern] of [urlSchema]:
    [^[a-zA-Z0-9]([a-zA-Z0-9-]*[a-zA-Z0-9])?(\.[a-zA-Z0-9]([a-zA-Z0-9-]*[a-zA-Z0-9])?)*$] *)
Definition domainPattern : regex :=
  Seq labelPattern (Star (Seq (Class isDot) labelPattern)).

(** The refinement of [urlSchema]; [canParse val] tells whether
    [new URL(val)] returns. *)
Definition urlRefine (canParse : jsstring → bool) (val : jsstring) : bool :=
  if startsWith val (lit "http://") || startsWith val (lit "https://")
  then canParse val
  else test domainPattern val.

(** [urlSchema]: a string of at least one code unit that passes the
    refinement. *)
Definition urlSchema (canParse : jsstring → bool) (data : gmap string value)
  : bool :=
  match get data "url" with
  | Str val => bool_decide (1 ≤ length val)%nat && urlRefine canParse val
  | _ => false
  end.

(** A label of a domain name: letters, digits and hyphens, with no hyphen
    at either end. *)
Definition isLabel (l : jsstring) : bool :=
  forallb isAlnumDash l
  && from_option isAlnum false (head l)
  && from_option isAlnum false (last l).

(** [z.string().optional()] and [z.boolean().optional()] *)
Definition optionalString (v : value) : bool :=
  match v with
  | Undefined | Str _ => true
  | Bool _ => false
  end.

Definition optionalBoolean (v : value) : bool :=
  match v with
  | Undefined | Bool _ => true
  | Str _ => false
  end.

(** [wifiSchema] *)
Definition wifiSchema (data : gmap string value) : bool :=
  match get data "ssid" with
  | Str s => bool_decide (1 ≤ length s)%nat
  | _ => false
  end
  && optionalString (get data "password")
  && match get data "security" with
     | Str s => bool_decide (s ∈ [lit "WPA"; lit "WEP"; lit "nopass"])
     | _ => false
     end
  && optionalBoolean (get data "hidden").

(** [textSchema] *)
Definition textSchema (data : gmap string value) : bool :=
  match get data "text" with
  | Str s => bool_decide (1 ≤ length s)%nat
  | _ => false
  end.

(** [z.string().email().optional().or(z.literal(''))], and the same with
    [url()]: absent, empty, or accepted by the check [ok] of the
    library. *)
Definition optionalOrEmpty (ok : jsstring → bool) (v : value) : bool :=
  match v with
  | Undefined => true
  | Str s => ok s || bool_decide (s = [])
  | Bool _ => false
  end.

(** [contactSchema]; [isEmail] and [isUrl] stand for the checks behind
    [.email()] and [.url()]. *)
Definition contactSchema (isEmail isUrl : jsstring → bool)
    (data : gmap string value) : bool :=
  match get data "firstName" with
  | Str s => bool_decide (1 ≤ length s)%nat
  | _ => false
  end
  && optionalString (get data "lastName")
  && optionalString (get data "phone")
  && optionalOrEmpty isEmail (get data "email")
  && optionalString (get data "organization")
  && optionalOrEmpty isUrl (get data "url").

(** The values of the contact form when only the first name has been
    typed in: the [defaultValues] of [contactForm] for the rest. *)
Definition contactFirstNameOnly (firstName : jsstring) : gmap string value :=
  list_to_map [("firstName", Str firstName); ("lastName", Str []);
               ("phone", Str []); ("email", Str []);
               ("organization", Str []); ("url", Str [])].

(** The field set an object accepted by [wifiSchema] stands for. *)
Definition wifiFields (data : gmap string value) : Wifi.t :=
  {| Wifi.ssid := ToString (get data "ssid");
     Wifi.password :=
       match get data "password" with
       | Str p => Some p
       | _ => None
       end;
     Wifi.security :=
       if decide (ToString (get data "security") = lit "WEP") then Wifi.WEP
       else if decide (ToString (get data "security") = lit "nopass")
            then Wifi.nopass
            else Wifi.WPA;
     Wifi.hidden :=
       match get data "hidden" with
       | Bool b => Some b
       | _ => None
       end |}.

(** ** The theme toggle of [top-nav.tsx] *)

(** [theme === "light" ? "dark" : "light"], the argument of [setTheme]. *)
Definition toggleTheme (theme : jsstring) : jsstring :=
  if decide (theme = lit "light") then lit "dark" else lit "light".

(** * Properties *)

(** ** Reading the fields back *)

Lemma or_else_Str (o : option jsstring) :
  ToString (or_else (from_option Str Undefined o) (Str [])) = orEmpty o.
Proof.
  destruct o as [s|]; [|reflexivity].
  unfold or_else; simpl. by case_bool_decide; subst.
Qed.

Lemma get_Url f : get (Url.data f) "url" = Str (Url.url f).
Proof. reflexivity. Qed.

Lemma get_Wifi f :
  get (Wifi.data f) "ssid" = Str (Wifi.ssid f)
  ∧ get (Wifi.data f) "security" = Str (Wifi.name (Wifi.security f))
  ∧ get (Wifi.data f) "password" = from_option Str Undefined (Wifi.password f)
  ∧ get (Wifi.data f) "hidden" = from_option Bool Undefined (Wifi.hidden f).
Proof. destruct f as [s [p|] sec [h|]]; repeat split. Qed.

Lemma get_Contact f :
  get (Contact.data f) "firstName" = Str (Contact.firstName f)
  ∧ get (Contact.data f) "lastName" = from_option Str Undefined (Contact.lastName f)
  ∧ get (Contact.data f) "phone" = from_option Str Undefined (Contact.phone f)
  ∧ get (Contact.data f) "email" = from_option Str Undefined (Contact.email f)
  ∧ get (Contact.data f) "organization"
    = from_option Str Undefined (Contact.organization f)
  ∧ get (Contact.data f) "url" = from_option Str Undefined (Contact.url f).
Proof. destruct f as [fn [l|] [p|] [e|] [o|] [u|]]; repeat split. Qed.

Lemma get_Text f : get (Text.data f) "text" = Str (Text.text f).
Proof. reflexivity. Qed.

Lemma get_Email f :
  get (Email.data f) "email" = Str (Email.email f)
  ∧ get (Email.data f) "subject" = from_option Str Undefined (Email.subject f)
  ∧ get (Email.data f) "body" = from_option Str Undefined (Email.body f).
Proof. destruct f as [e [s|] [b|]]; repeat split. Qed.

Lemma get_Sms f :
  get (Sms.data f) "phone" = Str (Sms.phone f)
  ∧ get (Sms.data f) "message" = from_option Str Undefined (Sms.message f).
Proof. destruct f as [p [m|]]; repeat split. Qed.

(** ** The [switch] on the type tag *)

(** Selects the [case] of a literal tag: every comparison with another
    literal is decided by evaluation. *)
Ltac switch :=
  unfold generateQRData;
  repeat (let E := fresh "E" in
          case_decide as E;
          [ try (vm_compute in E; discriminate E)
          | try (exfalso; apply E; reflexivity) ]).

(** ** [startsWith] is the prefix relation *)

Lemma startsWith_prefix (s search : jsstring) :
  startsWith s search = true ↔ search `prefix_of` s.
Proof.
  revert s. induction search as [|c search IH]; intros s; simpl.
  - split; [intros _; apply prefix_nil | done].
  - destruct s as [|x s].
    + split; [done | intros H; by apply prefix_nil_not in H].
    + case_decide as E.
      * subst x. rewrite IH. split; [apply prefix_cons | apply prefix_cons_inv_2].
      * split; [done | intros H; apply prefix_cons_inv_1 in H; congruence].
Qed.

Lemma startsWith_decide (s search : jsstring) :
  startsWith s search = bool_decide (search `prefix_of` s).
Proof.
  apply eq_true_iff_eq. rewrite startsWith_prefix. symmetry. apply bool_decide_eq_true.
Qed.

(** ** Url *)

(** C1. For a Url input whose [url] starts with [http://] or with
    [https://] (exact code units, so case-sensitively), the encoder returns
    the string unchanged; for any other it returns the string with
    [https://] put in front. Nothing else is done to the string. *)
Theorem url_passthrough_or_https (f : Url.t) :
  generateQRData (lit "url") (Url.data f)
  = Return (Str (if decide (lit "http://" `prefix_of` Url.url f
                            ∨ lit "https://" `prefix_of` Url.url f)
                 then Url.url f
                 else lit "https://" ++ Url.url f)).
Proof.
  switch; rewrite get_Url; cbn [call_startsWith bind ToString];
    rewrite !startsWith_decide;
    repeat case_bool_decide; simpl; try reflexivity; tauto.
Qed.

Example url_bare_domain :
  generateQRData (lit "url") (Url.data {| Url.url := lit "example.com" |})
  = Return (Str (lit "https://example.com")).
Proof. vm_compute. reflexivity. Qed.

Example url_http_unchanged :
  generateQRData (lit "url") (Url.data {| Url.url := lit "http://example.com" |})
  = Return (Str (lit "http://example.com")).
Proof. vm_compute. reflexivity. Qed.

Example url_upper_case_scheme :
  generateQRData (lit "url") (Url.data {| Url.url := lit "HTTP://Example.COM" |})
  = Return (Str (lit "https://HTTP://Example.COM")).
Proof. vm_compute. reflexivity. Qed.

(** ** Wifi *)

(** C2. For a Wifi input the encoder returns
    [WIFI:T:<security>;S:<ssid>;P:<password>;H:<hidden>;;] with the
    security name, the ssid and the password copied as they are (an absent
    password gives nothing between [P:] and [;]), and [true] or [false]
    for the hidden flag. *)
Theorem wifi_format (f : Wifi.t) :
  generateQRData (lit "wifi") (Wifi.data f)
  = Return (Str (lit "WIFI:T:" ++ Wifi.name (Wifi.security f)
                 ++ lit ";S:" ++ Wifi.ssid f
                 ++ lit ";P:" ++ orEmpty (Wifi.password f)
                 ++ lit ";H:" ++ hiddenText (Wifi.hidden f)
                 ++ lit ";;")).
Proof.
  switch. destruct (get_Wifi f) as (-> & -> & -> & ->).
  rewrite or_else_Str. by destruct (Wifi.hidden f) as [[]|].
Qed.

Example wifi_home :
  generateQRData (lit "wifi")
    (Wifi.data {| Wifi.ssid := lit "Home"; Wifi.password := Some (lit "secret");
                  Wifi.security := Wifi.WPA; Wifi.hidden := Some true |})
  = Return (Str (lit "WIFI:T:WPA;S:Home;P:secret;H:true;;")).
Proof. vm_compute. reflexivity. Qed.

Example wifi_guest :
  generateQRData (lit "wifi")
    (Wifi.data {| Wifi.ssid := lit "Guest"; Wifi.password := None;
                  Wifi.security := Wifi.nopass; Wifi.hidden := Some false |})
  = Return (Str (lit "WIFI:T:nopass;S:Guest;P:;H:false;;")).
Proof. vm_compute. reflexivity. Qed.

(** C8. A Wifi input whose hidden flag is absent, or false, is encoded
    with the segment [H:false]. *)
Theorem wifi_hidden_absent (f : Wifi.t) :
  Wifi.hidden f = None ∨ Wifi.hidden f = Some false →
  generateQRData (lit "wifi") (Wifi.data f)
  = Return (Str (lit "WIFI:T:" ++ Wifi.name (Wifi.security f)
                 ++ lit ";S:" ++ Wifi.ssid f
                 ++ lit ";P:" ++ orEmpty (Wifi.password f)
                 ++ lit ";H:false;;")).
Proof.
  intros H. switch. destruct (get_Wifi f) as (-> & -> & -> & ->).
  rewrite or_else_Str. by destruct H as [-> | ->].
Qed.

Lemma wifi_hidden_absent_witness :
  generateQRData (lit "wifi")
    (Wifi.data {| Wifi.ssid := lit "Guest"; Wifi.password := None;
                  Wifi.security := Wifi.nopass; Wifi.hidden := None |})
  = Return (Str (lit "WIFI:T:nopass;S:Guest;P:;H:false;;")).
Proof.
  apply (wifi_hidden_absent
           {| Wifi.ssid := lit "Guest"; Wifi.password := None;
              Wifi.security := Wifi.nopass; Wifi.hidden := None |}).
  left. reflexivity.
Defined.

(** ** Contact *)

(** C3. For a Contact input the encoder returns the eight vCard lines,
    separated by line breaks; an absent optional field leaves its line with
    nothing after the colon, and the [FN] line has the space after the
    first name whatever the last name is. *)
Theorem contact_vcard (f : Contact.t) :
  generateQRData (lit "contact") (Contact.data f)
  = Return (Str (lit "BEGIN:VCARD" ++ nl ++ lit "VERSION:3.0" ++ nl
                 ++ lit "FN:" ++ Contact.firstName f ++ lit " "
                 ++ orEmpty (Contact.lastName f)
                 ++ nl ++ lit "ORG:" ++ orEmpty (Contact.organization f)
                 ++ nl ++ lit "TEL:" ++ orEmpty (Contact.phone f)
                 ++ nl ++ lit "EMAIL:" ++ orEmpty (Contact.email f)
                 ++ nl ++ lit "URL:" ++ orEmpty (Contact.url f)
                 ++ nl ++ lit "END:VCARD")).
Proof.
  switch. destruct (get_Contact f) as (-> & -> & -> & -> & -> & ->).
  by rewrite !or_else_Str.
Qed.

Example contact_john_doe :
  generateQRData (lit "contact")
    (Contact.data {| Contact.firstName := lit "John";
                     Contact.lastName := Some (lit "Doe");
                     Contact.phone := None; Contact.email := None;
                     Contact.organization := None; Contact.url := None |})
  = Return (Str (lit "BEGIN:VCARD" ++ nl ++ lit "VERSION:3.0" ++ nl
                 ++ lit "FN:John Doe" ++ nl ++ lit "ORG:" ++ nl ++ lit "TEL:"
                 ++ nl ++ lit "EMAIL:" ++ nl ++ lit "URL:" ++ nl
                 ++ lit "END:VCARD")).
Proof. vm_compute. reflexivity. Qed.

(** ** Text *)

(** C6. For a Text input the encoder returns the text as it is, and
    encoding the result again as a Text input returns the same string. *)
Theorem text_identity (f : Text.t) :
  generateQRData (lit "text") (Text.data f) = Return (Str (Text.text f))
  ∧ reencodeText (generateQRData (lit "text") (Text.data f))
    = generateQRData (lit "text") (Text.data f).
Proof.
  assert (Hid : generateQRData (lit "text") (Text.data f)
                = Return (Str (Text.text f))).
  { switch. by rewrite get_Text. }
  split; [exact Hid|]. rewrite Hid. unfold reencodeText; simpl. by switch.
Qed.

Example text_verbatim :
  generateQRData (lit "text") (Text.data {| Text.text := lit " Hello World? " |})
  = Return (Str (lit " Hello World? ")).
Proof. vm_compute. reflexivity. Qed.

(** ** Unknown type tags *)

(** C9. For a type tag that is none of the six known ones the encoder
    returns the empty string, whatever the data. *)
Theorem unknown_type_empty (type : jsstring) (data : gmap string value) :
  type ∉ knownTypes → generateQRData type data = Return (Str []).
Proof.
  intros H. unfold knownTypes in H. rewrite !not_elem_of_cons in H.
  unfold generateQRData. repeat case_decide; try reflexivity; tauto.
Qed.

Lemma unknown_type_empty_witness :
  generateQRData (lit "URL") (Url.data {| Url.url := lit "example.com" |})
  = Return (Str []).
Proof.
  apply unknown_type_empty. unfold knownTypes. rewrite !not_elem_of_cons.
  repeat split; try (intros H; vm_compute in H; discriminate H).
  apply not_elem_of_nil.
Defined.

(** ** When [encodeURIComponent] returns *)

Lemma uriUnescaped_ascii c : uriUnescaped c = true → c < 0x80.
Proof.
  unfold uriUnescaped, in_range.
  rewrite !orb_true_iff, !andb_true_iff, !N.leb_le, bool_decide_eq_true.
  assert (uriMark = [0x2D; 0x5F; 0x2E; 0x21; 0x7E; 0x2A; 0x27; 0x28; 0x29])
    as -> by reflexivity.
  rewrite !elem_of_cons, elem_of_nil. lia.
Qed.

Lemma uriUnescaped_not_surrogate c :
  uriUnescaped c = true →
  isTrailingSurrogate c = false ∧ isLeadingSurrogate c = false.
Proof.
  intros H%uriUnescaped_ascii. unfold isTrailingSurrogate, isLeadingSurrogate, in_range.
  rewrite !andb_false_iff, !N.leb_gt. lia.
Qed.

Lemma Encode_isWellFormed_bounded (n : nat) (s : jsstring) :
  (length s ≤ n)%nat → (is_Some (Encode s) ↔ isWellFormed s = true).
Proof.
  revert s. induction n as [|n IH]; intros [|c rest] Hlen; simpl in *;
    try lia; try (split; [reflexivity | eauto]).
  destruct (uriUnescaped c) eqn:U.
  - destruct (uriUnescaped_not_surrogate c U) as [-> ->].
    rewrite fmap_is_Some. apply IH. lia.
  - destruct (isTrailingSurrogate c).
    { split; [intros [? ?]; discriminate | discriminate]. }
    destruct (isLeadingSurrogate c).
    + destruct rest as [|c2 rest'].
      { split; [intros [? ?]; discriminate | discriminate]. }
      destruct (isTrailingSurrogate c2); simpl.
      * rewrite fmap_is_Some. apply IH. simpl in Hlen. lia.
      * split; [intros [? ?]; discriminate | discriminate].
    + rewrite fmap_is_Some. apply IH. lia.
Qed.

(** [encodeURIComponent] returns exactly on the well-formed strings, and
    throws [URIError] on the others. *)
Lemma Encode_isWellFormed (s : jsstring) :
  is_Some (Encode s) ↔ isWellFormed s = true.
Proof. by apply (Encode_isWellFormed_bounded (length s)). Qed.

Lemma encodeURIComponent_returns (s : jsstring) :
  isWellFormed s = true →
  ∃ r, Encode s = Some r ∧ encodeURIComponent (Str s) = Return r.
Proof.
  intros [r Hr]%Encode_isWellFormed. exists r. split; [exact Hr|].
  unfold encodeURIComponent; simpl. by rewrite Hr.
Qed.

Lemma encodeURIComponent_throws (s : jsstring) :
  isWellFormed s = false → encodeURIComponent (Str s) = Throw URIError.
Proof.
  intros H. unfold encodeURIComponent; simpl.
  destruct (Encode s) as [r|] eqn:Hr; [|reflexivity].
  assert (isWellFormed s = true) by (apply Encode_isWellFormed; eauto). congruence.
Qed.

Lemma Encode_space (s : jsstring) :
  Encode (0x20 :: s) = (lit "%20" ++.) <$> Encode s.
Proof. reflexivity. Qed.

Example Encode_reserved :
  Encode (lit "a&b=c/d?e#f+g, h") = Some (lit "a%26b%3Dc%2Fd%3Fe%23f%2Bg%2C%20h").
Proof. vm_compute. reflexivity. Qed.

Example Encode_marks : Encode (lit "-_.!~*'()") = Some (lit "-_.!~*'()").
Proof. vm_compute. reflexivity. Qed.

Example Encode_euro_and_emoji :
  Encode [0x20AC; 0xD83D; 0xDE00; 0xE9] = Some (lit "%E2%82%AC%F0%9F%98%80%C3%A9").
Proof. vm_compute. reflexivity. Qed.

Example Encode_lone_surrogates :
  Encode [0xD800] = None ∧ Encode [0xDC00] = None
  ∧ Encode [0xD83D; 0x41] = None ∧ Encode [0xDE00; 0xD83D] = None.
Proof. repeat split. Qed.

Lemma or_else_empty (o : option jsstring) :
  or_else (from_option Str Undefined o) (Str []) = Str (orEmpty o).
Proof.
  destruct o as [s|]; [|reflexivity].
  unfold or_else; simpl. by case_bool_decide; subst.
Qed.

(** ** Email *)

Lemma encode_email (f : Email.t) :
  generateQRData (lit "email") (Email.data f)
  = (let! subject := encodeURIComponent (Str (orEmpty (Email.subject f))) in
     let! body := encodeURIComponent (Str (orEmpty (Email.body f))) in
     Return (Str (lit "mailto:" ++ Email.email f ++ lit "?subject=" ++ subject
                  ++ lit "&body=" ++ body))).
Proof.
  switch. destruct (get_Email f) as (-> & -> & ->). by rewrite !or_else_empty.
Qed.

(** C4, as the code has it. For an Email input whose subject and body
    hold no surrogate outside a pair, the encoder returns
    [mailto:<email>?subject=<s>&body=<b>] with [s] and [b] the
    percent-encodings of the subject and the body (nothing for an absent
    one); both parameters are always there and the address is copied as it
    is. *)
Theorem email_mailto (f : Email.t) :
  isWellFormed (orEmpty (Email.subject f)) = true →
  isWellFormed (orEmpty (Email.body f)) = true →
  ∃ s b,
    Encode (orEmpty (Email.subject f)) = Some s
    ∧ Encode (orEmpty (Email.body f)) = Some b
    ∧ generateQRData (lit "email") (Email.data f)
      = Return (Str (lit "mailto:" ++ Email.email f ++ lit "?subject=" ++ s
                     ++ lit "&body=" ++ b)).
Proof.
  intros (s & Hs & Es)%encodeURIComponent_returns
         (b & Hb & Eb)%encodeURIComponent_returns.
  exists s, b. repeat split; [exact Hs | exact Hb |].
  rewrite encode_email, Es; simpl. by rewrite Eb.
Qed.

Lemma email_mailto_witness :
  ∃ s b,
    Encode (lit "Hi there") = Some s
    ∧ Encode [] = Some b
    ∧ generateQRData (lit "email")
        (Email.data {| Email.email := lit "a@b.com";
                       Email.subject := Some (lit "Hi there");
                       Email.body := Some [] |})
      = Return (Str (lit "mailto:" ++ lit "a@b.com" ++ lit "?subject=" ++ s
                     ++ lit "&body=" ++ b)).
Proof.
  apply (email_mailto {| Email.email := lit "a@b.com";
                         Email.subject := Some (lit "Hi there");
                         Email.body := Some [] |}); reflexivity.
Defined.

Example email_hi_there :
  generateQRData (lit "email")
    (Email.data {| Email.email := lit "a@b.com";
                   Email.subject := Some (lit "Hi there");
                   Email.body := Some [] |})
  = Return (Str (lit "mailto:a@b.com?subject=Hi%20there&body=")).
Proof. vm_compute. reflexivity. Qed.

(** Outside that domain the call of [encodeURIComponent] throws, and so
    does the encoder. *)
Lemma email_ill_formed_throws (f : Email.t) :
  isWellFormed (orEmpty (Email.subject f)) = false
  ∨ isWellFormed (orEmpty (Email.body f)) = false →
  generateQRData (lit "email") (Email.data f) = Throw URIError.
Proof.
  rewrite encode_email. intros [H | H].
  - by rewrite (encodeURIComponent_throws _ H).
  - rewrite (encodeURIComponent_throws _ H).
    unfold encodeURIComponent. by destruct (Encode _).
Qed.

(** An Email input the schema accepts and the encoder does not encode: the
    subject is one high surrogate, [encodeURIComponent] throws. *)
Lemma email_lone_surrogate_throws :
  generateQRData (lit "email")
    (Email.data {| Email.email := lit "a@b.com";
                   Email.subject := Some [0xD800];
                   Email.body := None |})
  = Throw URIError.
Proof. vm_compute. reflexivity. Qed.

(** ** Sms *)

Lemma encode_sms (f : Sms.t) :
  generateQRData (lit "sms") (Sms.data f)
  = (let! tail :=
       (if bool_decide (orEmpty (Sms.message f) = []) then Return []
        else (let! message := encodeURIComponent (Str (orEmpty (Sms.message f))) in
              Return (lit "?body=" ++ message))) in
     Return (Str (lit "sms:" ++ Sms.phone f ++ tail))).
Proof.
  switch. destruct (get_Sms f) as (-> & ->).
  destruct (Sms.message f) as [m|]; simpl; [|reflexivity].
  by case_bool_decide.
Qed.

(** C5, as the code has it. For an Sms input with an empty or absent
    message the encoder returns [sms:<phone>] and nothing more; with a
    non-empty message that holds no surrogate outside a pair it returns
    [sms:<phone>?body=<m>], [m] the percent-encoded message. The other
    forms with optional text fields (Wifi, Contact, Email) keep the label
    of an absent field and leave its value empty. *)
Theorem sms_body_elided (f : Sms.t) :
  (orEmpty (Sms.message f) = [] →
   generateQRData (lit "sms") (Sms.data f)
   = Return (Str (lit "sms:" ++ Sms.phone f)))
  ∧ (orEmpty (Sms.message f) ≠ [] →
     isWellFormed (orEmpty (Sms.message f)) = true →
     ∃ m, Encode (orEmpty (Sms.message f)) = Some m
          ∧ generateQRData (lit "sms") (Sms.data f)
            = Return (Str (lit "sms:" ++ Sms.phone f ++ lit "?body=" ++ m)))
  ∧ (∀ ssid security hidden,
       generateQRData (lit "wifi")
         (Wifi.data {| Wifi.ssid := ssid; Wifi.password := None;
                       Wifi.security := security; Wifi.hidden := hidden |})
       = Return (Str (lit "WIFI:T:" ++ Wifi.name security ++ lit ";S:" ++ ssid
                      ++ lit ";P:" ++ lit ";H:" ++ hiddenText hidden ++ lit ";;")))
  ∧ (∀ firstName,
       generateQRData (lit "contact")
         (Contact.data {| Contact.firstName := firstName;
                          Contact.lastName := None; Contact.phone := None;
                          Contact.email := None; Contact.organization := None;
                          Contact.url := None |})
       = Return (Str (lit "BEGIN:VCARD" ++ nl ++ lit "VERSION:3.0" ++ nl
                      ++ lit "FN:" ++ firstName ++ lit " "
                      ++ nl ++ lit "ORG:" ++ nl ++ lit "TEL:"
                      ++ nl ++ lit "EMAIL:" ++ nl ++ lit "URL:"
                      ++ nl ++ lit "END:VCARD")))
  ∧ (∀ email,
       generateQRData (lit "email")
         (Email.data {| Email.email := email; Email.subject := None;
                        Email.body := None |})
       = Return (Str (lit "mailto:" ++ email ++ lit "?subject=" ++ lit "&body="))).
Proof.
  split; [|split; [|split; [|split]]].
  - intros H. rewrite encode_sms, bool_decide_eq_true_2 by exact H.
    simpl. by rewrite app_nil_r.
  - intros H (m & Hm & Em)%encodeURIComponent_returns. exists m.
    split; [exact Hm|].
    rewrite encode_sms, bool_decide_eq_false_2 by exact H. by rewrite Em.
  - intros ssid security hidden. switch. by destruct hidden as [[]|].
  - intros firstName. by switch.
  - intros email. rewrite encode_email. reflexivity.
Qed.

Lemma sms_body_elided_witness :
  generateQRData (lit "sms")
    (Sms.data {| Sms.phone := lit "+15551234567"; Sms.message := Some [] |})
  = Return (Str (lit "sms:" ++ lit "+15551234567"))
  ∧ ∃ m, Encode (lit "On my way!") = Some m
         ∧ generateQRData (lit "sms")
             (Sms.data {| Sms.phone := lit "+15551234567";
                          Sms.message := Some (lit "On my way!") |})
           = Return (Str (lit "sms:" ++ lit "+15551234567" ++ lit "?body=" ++ m)).
Proof.
  split.
  - apply (proj1 (sms_body_elided
                    {| Sms.phone := lit "+15551234567"; Sms.message := Some [] |})).
    reflexivity.
  - apply (proj1 (proj2 (sms_body_elided
                           {| Sms.phone := lit "+15551234567";
                              Sms.message := Some (lit "On my way!") |}))).
    + intros H. vm_compute in H. discriminate H.
    + reflexivity.
Defined.

Example sms_no_message :
  generateQRData (lit "sms")
    (Sms.data {| Sms.phone := lit "+15551234567"; Sms.message := Some [] |})
  = Return (Str (lit "sms:+15551234567")).
Proof. vm_compute. reflexivity. Qed.

Example sms_with_message :
  generateQRData (lit "sms")
    (Sms.data {| Sms.phone := lit "+15551234567";
                 Sms.message := Some (lit "On my way!") |})
  = Return (Str (lit "sms:+15551234567?body=On%20my%20way!")).
Proof. vm_compute. reflexivity. Qed.

Lemma sms_ill_formed_throws (f : Sms.t) :
  isWellFormed (orEmpty (Sms.message f)) = false →
  generateQRData (lit "sms") (Sms.data f) = Throw URIError.
Proof.
  intros H. rewrite encode_sms, (encodeURIComponent_throws _ H).
  case_bool_decide as E; [|reflexivity]. by rewrite E in H.
Qed.

(** An Sms input the schema accepts and the encoder does not encode: the
    message is one low surrogate. *)
Lemma sms_lone_surrogate_throws :
  generateQRData (lit "sms")
    (Sms.data {| Sms.phone := lit "+15551234567"; Sms.message := Some [0xDC00] |})
  = Throw URIError.
Proof. vm_compute. reflexivity. Qed.

(** ** Determinism and totality *)

Lemma generateQRData_ext (type : jsstring) (d1 d2 : gmap string value) :
  (∀ k, k ∈ propertiesRead type → get d1 k = get d2 k) →
  generateQRData type d1 = generateQRData type d2.
Proof.
  unfold propertiesRead, generateQRData. intros H.
  repeat case_decide; try reflexivity;
    repeat match goal with
           | |- context [get d1 ?k] =>
             rewrite (H k) by (rewrite !elem_of_cons; tauto)
           end;
    reflexivity.
Qed.

Lemma encode_returns (p : Payload) :
  Forall (λ s, isWellFormed s = true) (percentEncoded p) →
  ∃ out, encode p = Return (Str out).
Proof.
  unfold encode. destruct p as [f|f|f|f|f|f]; simpl; intros Hwf.
  - switch. rewrite get_Url; simpl.
    destruct (negb _); simpl; [destruct (negb _)|]; eauto.
  - switch. eauto.
  - switch. eauto.
  - switch. rewrite get_Text. eauto.
  - apply Forall_cons in Hwf as [Hs Hb]. apply Forall_cons in Hb as [Hb _].
    apply encodeURIComponent_returns in Hs as (s & _ & Es).
    apply encodeURIComponent_returns in Hb as (b & _ & Eb).
    rewrite encode_email, Es; simpl. rewrite Eb; simpl. eauto.
  - apply Forall_cons in Hwf as [Hm _].
    apply encodeURIComponent_returns in Hm as (m & _ & Em).
    rewrite encode_sms. case_bool_decide; simpl; [eauto|].
    rewrite Em; simpl. eauto.
Qed.

(** C7, as the code has it. The encoder is a function of the type tag and
    of the values of the properties its [case] reads: two calls that agree
    on them return the same completion. On a field set of one of the six
    forms it returns a string, provided the strings it percent-encodes (the
    subject and body of an Email, the message of an Sms) hold no surrogate
    outside a pair. *)
Theorem encode_deterministic_total :
  (∀ type d1 d2,
     (∀ k, k ∈ propertiesRead type → get d1 k = get d2 k) →
     generateQRData type d1 = generateQRData type d2)
  ∧ (∀ p q, tag p = tag q → fields p = fields q → encode p = encode q)
  ∧ (∀ p, Forall (λ s, isWellFormed s = true) (percentEncoded p) →
          ∃ out, encode p = Return (Str out)).
Proof.
  split; [exact generateQRData_ext|]. split; [|exact encode_returns].
  intros p q Ht Hf. unfold encode. by rewrite Ht, Hf.
Qed.

Lemma encode_deterministic_total_witness :
  generateQRData (lit "text") (list_to_map [("text", Str (lit "hi"))])
  = generateQRData (lit "text")
      (list_to_map [("text", Str (lit "hi")); ("hidden", Bool true)])
  ∧ ∃ out, encode (PSms {| Sms.phone := lit "+15551234567";
                           Sms.message := Some (lit "On my way!") |})
           = Return (Str out).
Proof.
  split.
  - apply (proj1 encode_deterministic_total). intros k Hk.
    assert (propertiesRead (lit "text") = ["text"]) as E by reflexivity.
    rewrite E, elem_of_cons, elem_of_nil in Hk. destruct Hk as [-> | []].
    reflexivity.
  - apply (proj2 (proj2 encode_deterministic_total)).
    repeat constructor.
Defined.

(** A well-formed input on which the encoder fails: [smsSchema] accepts a
    message that is one high surrogate, and [encodeURIComponent] throws on
    it. *)
Lemma valid_sms_input_throws :
  smsSchema (fields (PSms {| Sms.phone := lit "+15551234567";
                             Sms.message := Some [0xD800] |})) = true
  ∧ encode (PSms {| Sms.phone := lit "+15551234567";
                    Sms.message := Some [0xD800] |}) = Throw URIError.
Proof. split; vm_compute; reflexivity. Qed.

(** ** The history stays short *)

Lemma handleGenerate_length (type : jsstring) (r : Run) (st : App) :
  (length (generatedQRs st) ≤ 10)%nat →
  (length (generatedQRs (handleGenerate type r st)) ≤ 10)%nat.
Proof.
  intros Hlen. unfold handleGenerate.
  case_decide; [|exact Hlen]. destruct (isValid r); [|exact Hlen].
  destruct (generateQRData _ _) as [qrData|]; [|exact Hlen].
  destruct (generateQR r qrData); [|exact Hlen].
  simpl. rewrite length_take. lia.
Qed.

(** C10. A run of [handleGenerate] never takes a history of at most 10
    entries beyond 10; after a successful one the history is the new entry
    followed by the first 9 of the previous entries (all of them when there
    were fewer), so it has at most 10 entries and the newest comes first. *)
Theorem history_bounded (ty : jsstring) (r : Run) (st : App)
    (qrData : value) (dataUrl : jsstring) :
  ((length (generatedQRs st) ≤ 10)%nat →
   (length (generatedQRs (handleGenerate ty r st)) ≤ 10)%nat)
  ∧ (ty ∈ knownTypes → isValid r = true →
     generateQRData ty (formData r) = Return qrData →
     generateQR r qrData = Some dataUrl →
     let newQR := {| QR.id := now r; QR.type := ty; QR.data := qrData;
                     QR.dataUrl := dataUrl; QR.options := qrOptions st |} in
     generatedQRs (handleGenerate ty r st) = newQR :: take 9 (generatedQRs st)
     ∧ (length (generatedQRs (handleGenerate ty r st)) ≤ 10)%nat
     ∧ head (generatedQRs (handleGenerate ty r st)) = Some newQR
     ∧ ((length (generatedQRs st) ≤ 9)%nat →
        generatedQRs (handleGenerate ty r st) = newQR :: generatedQRs st)).
Proof.
  split; [apply handleGenerate_length|].
  intros Hty Hvalid Hdata Hqr newQR.
  assert (E : generatedQRs (handleGenerate ty r st)
              = newQR :: take 9 (generatedQRs st)).
  { unfold handleGenerate. rewrite decide_True by exact Hty.
    by rewrite Hvalid, Hdata, Hqr. }
  rewrite E. repeat split.
  - simpl. rewrite length_take. lia.
  - intros Hlen. by rewrite take_ge.
Qed.

Lemma history_bounded_witness :
  (length (generatedQRs (handleGenerate (lit "text") textRun fullHistory)) ≤ 10)%nat
  ∧ generatedQRs (handleGenerate (lit "text") textRun fullHistory)
    = {| QR.id := lit "1700000000000"; QR.type := lit "text";
         QR.data := Str (lit "hi");
         QR.dataUrl := lit "data:image/png;base64,BBBB";
         QR.options := initialOptions |} :: replicate 9 olderQR.
Proof.
  destruct (history_bounded (lit "text") textRun fullHistory (Str (lit "hi"))
              (lit "data:image/png;base64,BBBB")) as [Hlen Hnew].
  split.
  - apply Hlen. simpl. lia.
  - apply Hnew.
    + unfold knownTypes. rewrite !elem_of_cons. do 3 right. left. reflexivity.
    + reflexivity.
    + vm_compute. reflexivity.
    + reflexivity.
Defined.

(** Any sequence of runs, started from a history of at most 10 entries,
    stays within 10 entries. *)
Lemma runs_bounded (l : list (jsstring * Run)) (st : App) :
  (length (generatedQRs st) ≤ 10)%nat →
  (length (generatedQRs (runs l st)) ≤ 10)%nat.
Proof.
  revert st. induction l as [|[ty r] l IH]; intros st Hlen; [exact Hlen|].
  apply IH. by apply handleGenerate_length.
Qed.

(** * Further properties *)

(** ** [generateQRData] on any object *)

Lemma encode_url_string (data : gmap string value) (s : jsstring) :
  get data "url" = Str s →
  generateQRData (lit "url") data
  = Return (Str (if startsWith s (lit "http://") || startsWith s (lit "https://")
                 then s else lit "https://" ++ s)).
Proof.
  intros Hs. switch. rewrite Hs. cbn [call_startsWith bind ToString].
  by destruct (startsWith s (lit "http://")), (startsWith s (lit "https://")).
Qed.

Lemma encode_url_other (data : gmap string value) :
  (∀ s, get data "url" ≠ Str s) →
  generateQRData (lit "url") data = Throw TypeError.
Proof.
  intros Hs. switch. destruct (get data "url") as [|s|b]; try reflexivity.
  by destruct (Hs s).
Qed.




Lemma encode_url_returns (data : gmap string value) (v : value) :
  generateQRData (lit "url") data = Return v →
  ∃ out, v = Str out
         ∧ (startsWith out (lit "http://") = true
            ∨ startsWith out (lit "https://") = true).
Proof.
  intros Hret. destruct (get data "url") as [|s|b] eqn:E.
  - rewrite encode_url_other in Hret; [discriminate | intros s; by rewrite E].
  - rewrite (encode_url_string data s E) in Hret.
    exists (if startsWith s (lit "http://") || startsWith s (lit "https://")
            then s else lit "https://" ++ s).
    split; [congruence|].
    destruct (startsWith s (lit "http://")) eqn:E1,
             (startsWith s (lit "https://")) eqn:E2; cbn [orb]; auto.
  - rewrite encode_url_other in Hret; [discriminate | intros s; by rewrite E].
Qed.



(** X4. The [url] case is idempotent: a returned value, encoded again as the
    [url] field, comes back as it is. *)
Theorem url_encoding_idempotent (data : gmap string value) (v : value) :
  generateQRData (lit "url") data = Return v →
  generateQRData (lit "url") (<["url" := v]> ∅) = Return v.
Proof.
  intros (out & -> & Hp)%encode_url_returns.
  rewrite (encode_url_string _ out) by reflexivity.
  destruct Hp as [Hp | Hp]; rewrite Hp; [reflexivity | by rewrite orb_true_r].
Qed.

Lemma url_encoding_idempotent_witness :
  generateQRData (lit "url") (<["url" := Str (lit "https://example.com")]> ∅)
  = Return (Str (lit "https://example.com")).
Proof.
  apply (url_encoding_idempotent (Url.data {| Url.url := lit "example.com" |})).
  vm_compute. reflexivity.
Defined.

(** ** More on [handleGenerate] *)

Lemma handleGenerate_failure (ty : jsstring) (r : Run) (st : App) :
  produced (qrOptions st) (ty, r) = None → handleGenerate ty r st = st.
Proof.
  unfold produced, handleGenerate. case_decide; [|done].
  destruct (isValid r); [|done].
  destruct (generateQRData ty (formData r)) as [qrData|]; [|done].
  by destruct (generateQR r qrData).
Qed.

(** X5. A run that does not succeed (the tag has no form, validation fails,
    the encoder throws, or the renderer rejects) leaves the whole state as
    it was: preview, history and options. *)
Theorem failed_run_changes_nothing (ty : jsstring) (r : Run) (st : App) :
  ty ∉ knownTypes
  ∨ isValid r = false
  ∨ (∃ e, generateQRData ty (formData r) = Throw e)
  ∨ (∃ qrData, generateQRData ty (formData r) = Return qrData
               ∧ generateQR r qrData = None) →
  handleGenerate ty r st = st.
Proof.
  intros Hfail. apply handleGenerate_failure. unfold produced.
  case_decide as Hty; [|done]. destruct (isValid r) eqn:Hv; [|done].
  destruct Hfail as [? | [? | [[e He] | (q & Hq & Hr)]]]; try done.
  - by rewrite He.
  - by rewrite Hq, Hr.
Qed.

Lemma failed_run_changes_nothing_witness :
  handleGenerate (lit "email")
    {| isValid := true;
       formData := Email.data {| Email.email := lit "a@b.com";
                                 Email.subject := Some [0xD800];
                                 Email.body := None |};
       generateQR := λ _, Some (lit "data:image/png;base64,BBBB");
       now := lit "1700000000000" |}
    fullHistory
  = fullHistory.
Proof.
  apply failed_run_changes_nothing. right; right; left.
  exists URIError. vm_compute. reflexivity.
Defined.

Lemma handleGenerate_success (ty : jsstring) (r : Run) (st : App) qr :
  produced (qrOptions st) (ty, r) = Some qr →
  handleGenerate ty r st
  = {| qrOptions := qrOptions st; currentQR := QR.dataUrl qr;
       generatedQRs := take 10 (qr :: generatedQRs st) |}.
Proof.
  unfold produced, handleGenerate. case_decide; [|done].
  destruct (isValid r); [|done].
  destruct (generateQRData ty (formData r)) as [qrData|]; [|done].
  destruct (generateQR r qrData); [|done]. simpl. by intros [= <-].
Qed.

Lemma handleGenerate_options (ty : jsstring) (r : Run) (st : App) :
  qrOptions (handleGenerate ty r st) = qrOptions st.
Proof.
  destruct (produced (qrOptions st) (ty, r)) as [qr|] eqn:E.
  - by rewrite (handleGenerate_success _ _ _ _ E).
  - by rewrite handleGenerate_failure.
Qed.

Lemma take_app_take {A} (n : nat) (a b : list A) :
  take n (a ++ take n b) = take n (a ++ b).
Proof. rewrite !take_app, take_take. f_equal. f_equal. lia. Qed.

Lemma runs_options (l : list (jsstring * Run)) (st : App) :
  qrOptions (runs l st) = qrOptions st.
Proof.
  revert st. induction l as [|[ty r] l IH]; intros st; [reflexivity|].
  change (runs ((ty, r) :: l) st) with (runs l (handleGenerate ty r st)).
  by rewrite IH, handleGenerate_options.
Qed.

(** X6. After any sequence of runs of which at least one succeeds, the history
    holds the entries of the successful runs, newest first, followed by the
    history from before, cut to 10 entries; when none succeeds it is the
    history from before. *)
Theorem runs_history (l : list (jsstring * Run)) (st : App) :
  generatedQRs (runs l st)
  = match omap (produced (qrOptions st)) l with
    | [] => generatedQRs st
    | news => take 10 (reverse news ++ generatedQRs st)
    end.
Proof.
  revert st. induction l as [|[ty r] l IH]; intros st; [reflexivity|].
  change (runs ((ty, r) :: l) st) with (runs l (handleGenerate ty r st)).
  rewrite IH, handleGenerate_options. cbn [omap list_omap].
  destruct (produced (qrOptions st) (ty, r)) as [qr|] eqn:E.
  - rewrite (handleGenerate_success _ _ _ _ E). cbn [generatedQRs].
    destruct (omap _ l) as [|qr' news]; [reflexivity|].
    rewrite take_app_take. by rewrite (reverse_cons _ qr), <- app_assoc.
  - by rewrite (handleGenerate_failure _ _ _ E).
Qed.

Example runs_history_twelve :
  generatedQRs (runs (replicate 12 (lit "text", textRun)) initialApp)
  = replicate 10 {| QR.id := lit "1700000000000"; QR.type := lit "text";
                    QR.data := Str (lit "hi");
                    QR.dataUrl := lit "data:image/png;base64,BBBB";
                    QR.options := initialOptions |}.
Proof. vm_compute. reflexivity. Qed.

Lemma handleGenerate_preview (ty : jsstring) (r : Run) (st : App) :
  previewIsNewest st → previewIsNewest (handleGenerate ty r st).
Proof.
  intros Hst. destruct (produced (qrOptions st) (ty, r)) as [qr|] eqn:E.
  - by rewrite (handleGenerate_success _ _ _ _ E).
  - by rewrite (handleGenerate_failure _ _ _ E).
Qed.

(** X7. As long as only [handleGenerate] runs, the preview shows the newest
    entry of the history. *)
Theorem runs_preview (l : list (jsstring * Run)) (st : App) :
  previewIsNewest st → previewIsNewest (runs l st).
Proof.
  revert st. induction l as [|[ty r] l IH]; intros st Hst; [exact Hst|].
  apply IH. by apply handleGenerate_preview.
Qed.

Lemma runs_preview_witness :
  previewIsNewest (runs [(lit "text", textRun); (lit "url", textRun)] initialApp).
Proof. apply runs_preview. reflexivity. Defined.

(** ** What [encodeURIComponent] produces *)

Lemma lor_lt_256 (a b : N) : a < 256 → b < 256 → N.lor a b < 256.
Proof.
  intros Ha Hb. destruct (N.eq_dec (N.lor a b) 0) as [->|Hne]; [lia|].
  assert (Hlog : ∀ x, x < 256 → N.log2 x < 8).
  { intros x Hx. destruct (N.eq_dec x 0) as [->|]; [reflexivity|].
    apply N.log2_lt_pow2; [lia | exact Hx]. }
  change 256 with (2 ^ 8). apply N.log2_lt_pow2; [lia|].
  rewrite N.log2_lor. apply N.max_lub_lt; auto.
Qed.

Lemma continuation_lt_256 (x : N) : N.lor 0x80 (N.land x 0x3F) < 256.
Proof.
  apply lor_lt_256; [lia|]. pose proof (N.land_le_r x 0x3F). lia.
Qed.

Lemma shiftr_lt (x k bound : N) : x < bound * 2 ^ k → N.shiftr x k < bound.
Proof.
  intros Hx. rewrite N.shiftr_div_pow2.
  apply N.Div0.div_lt_upper_bound. lia.
Qed.

Lemma utf8_octets (cp : N) : cp < 0x110000 → Forall (λ o, o < 256) (utf8 cp).
Proof.
  intros Hcp. unfold utf8.
  destruct (N.ltb_spec cp 0x80); [repeat constructor; lia|].
  destruct (N.ltb_spec cp 0x800).
  { repeat constructor; [|apply continuation_lt_256].
    apply lor_lt_256; [lia|]. pose proof (shiftr_lt cp 6 32). lia. }
  destruct (N.ltb_spec cp 0x10000).
  { repeat constructor; try apply continuation_lt_256.
    apply lor_lt_256; [lia|]. pose proof (shiftr_lt cp 12 16). lia. }
  repeat constructor; try apply continuation_lt_256.
  apply lor_lt_256; [lia|]. pose proof (shiftr_lt cp 18 16). lia.
Qed.

Lemma hexDigit_unescaped (d : N) : d < 16 → uriUnescaped (hexDigit d) = true.
Proof.
  intros Hd. unfold hexDigit, uriUnescaped, in_range.
  rewrite !orb_true_iff, !andb_true_iff, !N.leb_le.
  destruct (N.ltb_spec d 10); [left; right | left; left; left]; lia.
Qed.

Lemma percent_encoded (octet : N) : octet < 256 → Forall isEncoded (percent octet).
Proof.
  intros Ho. unfold percent. rewrite !Forall_cons.
  split; [by right|]. split; [|split; [|constructor]].
  - left. apply hexDigit_unescaped. by apply N.Div0.div_lt_upper_bound.
  - left. apply hexDigit_unescaped. by apply N.mod_lt.
Qed.

Lemma escape_encoded (cp : N) : cp < 0x110000 → Forall isEncoded (escape cp).
Proof.
  intros Hcp. unfold escape. apply Forall_bind.
  eapply Forall_impl; [by apply utf8_octets|]. apply percent_encoded.
Qed.

Lemma escape_length (cp : N) : (3 ≤ length (escape cp))%nat.
Proof.
  unfold escape, utf8.
  destruct (cp <? 0x80); [simpl; lia|]. destruct (cp <? 0x800); [simpl; lia|].
  destruct (cp <? 0x10000); simpl; lia.
Qed.

Lemma surrogate_pair_code_point (lead trail : N) :
  isLeadingSurrogate lead = true → isTrailingSurrogate trail = true →
  UTF16SurrogatePairToCodePoint lead trail < 0x110000.
Proof.
  unfold isLeadingSurrogate, isTrailingSurrogate, in_range,
    UTF16SurrogatePairToCodePoint.
  rewrite !andb_true_iff, !N.leb_le. lia.
Qed.

(** The cases of [Encode] on a non-empty string, as an inversion. *)
Lemma Encode_cons_inv (c : N) (rest r : jsstring) :
  Encode (c :: rest) = Some r →
  (uriUnescaped c = true ∧ ∃ r', Encode rest = Some r' ∧ r = c :: r')
  ∨ (uriUnescaped c = false ∧ isTrailingSurrogate c = false
     ∧ isLeadingSurrogate c = false
     ∧ ∃ r', Encode rest = Some r' ∧ r = escape c ++ r')
  ∨ (uriUnescaped c = false ∧ isLeadingSurrogate c = true
     ∧ ∃ c2 rest' r', rest = c2 :: rest' ∧ isTrailingSurrogate c2 = true
         ∧ Encode rest' = Some r'
         ∧ r = escape (UTF16SurrogatePairToCodePoint c c2) ++ r').
Proof.
  simpl. destruct (uriUnescaped c).
  { intros (r' & Hr' & ->)%fmap_Some. left. eauto. }
  destruct (isTrailingSurrogate c); [discriminate|].
  destruct (isLeadingSurrogate c).
  - destruct rest as [|c2 rest']; [discriminate|].
    destruct (isTrailingSurrogate c2) eqn:E2; [|discriminate].
    intros (r' & Hr' & ->)%fmap_Some. right; right.
    repeat split. exists c2, rest', r'. eauto.
  - intros (r' & Hr' & ->)%fmap_Some. right; left. eauto 10.
Qed.

Lemma Encode_encoded_bounded (n : nat) (s r : jsstring) :
  (length s ≤ n)%nat → Forall isCodeUnit s → Encode s = Some r →
  Forall isEncoded r.
Proof.
  revert s r. induction n as [|n IH]; intros [|c rest] r Hlen Hs Hr;
    simpl in Hlen; try lia; try (injection Hr as <-; constructor).
  apply Forall_cons in Hs as [Hc Hs].
  apply Encode_cons_inv in Hr
    as [(U & r' & Hr' & ->) | [(U & T & L & r' & Hr' & ->)
                              | (U & L & c2 & rest' & r' & -> & T & Hr' & ->)]].
  - constructor; [by left|]. apply (IH rest); [lia | done | done].
  - apply Forall_app. split.
    + apply escape_encoded. unfold isCodeUnit in Hc. lia.
    + apply (IH rest); [lia | done | done].
  - apply Forall_app. split.
    + apply escape_encoded. by apply surrogate_pair_code_point.
    + apply Forall_cons in Hs as [_ Hs].
      apply (IH rest'); [simpl in Hlen; lia | done | done].
Qed.

(** X8. A string that [encodeURIComponent] returns holds nothing but
    unreserved characters and percent signs: no space, no [&], [=], [?] or
    [#] of the input gets through. *)
Theorem Encode_encoded (s r : jsstring) :
  Forall isCodeUnit s → Encode s = Some r → Forall isEncoded r.
Proof. by apply (Encode_encoded_bounded (length s)). Qed.

Lemma Encode_encoded_witness :
  Forall isEncoded (lit "a%26b%3Dc%20%E2%82%AC").
Proof.
  apply (Encode_encoded (lit "a&b=c " ++ [0x20AC])).
  - repeat constructor.
  - vm_compute. reflexivity.
Defined.

Lemma Encode_length_bounded (n : nat) (s r : jsstring) :
  (length s ≤ n)%nat → Encode s = Some r →
  (length s ≤ length r)%nat
  ∧ (length r = length s → Forall (λ c, uriUnescaped c = true) s).
Proof.
  revert s r. induction n as [|n IH]; intros [|c rest] r Hlen Hr;
    simpl in Hlen; try lia; try (injection Hr as <-; split; [done | constructor]).
  apply Encode_cons_inv in Hr
    as [(U & r' & Hr' & ->) | [(U & T & L & r' & Hr' & ->)
                              | (U & L & c2 & rest' & r' & -> & T & Hr' & ->)]].
  - destruct (IH rest r') as [H1 H2]; [lia | done |]. simpl. split; [lia|].
    intros Heq. constructor; [done|]. apply H2. lia.
  - destruct (IH rest r') as [H1 _]; [lia | done |].
    pose proof (escape_length c). rewrite length_app. simpl. split; lia.
  - destruct (IH rest' r') as [H1 _]; [simpl in Hlen; lia | done |].
    pose proof (escape_length (UTF16SurrogatePairToCodePoint c c2)).
    rewrite length_app. simpl. split; lia.
Qed.

Lemma Encode_unescaped (s : jsstring) :
  Forall (λ c, uriUnescaped c = true) s → Encode s = Some s.
Proof.
  induction 1 as [|c rest Hc _ IH]; [reflexivity|].
  simpl. by rewrite Hc, IH.
Qed.

(** X9. [encodeURIComponent] never shortens a string, and it returns a string
    as it is exactly when every character of it is a letter, a digit or one
    of the marks [- _ . ! ~ * ' ( )]. *)
Theorem Encode_unchanged_iff (s : jsstring) :
  (∀ r, Encode s = Some r → (length s ≤ length r)%nat)
  ∧ (Encode s = Some s ↔ Forall (λ c, uriUnescaped c = true) s).
Proof.
  split.
  - intros r Hr. by apply (Encode_length_bounded (length s) s r).
  - split; [|apply Encode_unescaped].
    intros Hs. by apply (Encode_length_bounded (length s) s s).
Qed.

Lemma Encode_unchanged_iff_witness :
  (length (lit "Hi there") ≤ length (lit "Hi%20there"))%nat
  ∧ Forall (λ c, uriUnescaped c = true) (lit "Hi-there_(1)!").
Proof.
  split.
  - apply (proj1 (Encode_unchanged_iff (lit "Hi there"))). reflexivity.
  - apply (proj2 (Encode_unchanged_iff (lit "Hi-there_(1)!"))). reflexivity.
Defined.

Lemma Encode_app_bounded (n : nat) (a b : jsstring) :
  (length a ≤ n)%nat → isWellFormed a = true →
  Encode (a ++ b) = Encode a ≫= λ a', (a' ++.) <$> Encode b.
Proof.
  revert a. induction n as [|n IH]; intros [|c rest] Hlen Ha;
    simpl in Hlen; try lia; try (simpl; by destruct (Encode b)).
  simpl in *. destruct (uriUnescaped c) eqn:U.
  - destruct (uriUnescaped_not_surrogate c U) as [T L]. rewrite T, L in Ha.
    rewrite (IH rest) by (done || lia).
    destruct (Encode rest); simpl; [|done]. by destruct (Encode b).
  - destruct (isTrailingSurrogate c); [done|].
    destruct (isLeadingSurrogate c).
    + destruct rest as [|c2 rest']; [done|]. simpl.
      destruct (isTrailingSurrogate c2); [|done]. simpl in Ha, Hlen.
      rewrite (IH rest') by (done || lia).
      destruct (Encode rest'); simpl; [|done].
      destruct (Encode b); simpl; [|done]. by rewrite app_assoc.
    + rewrite (IH rest) by (done || lia).
      destruct (Encode rest); simpl; [|done].
      destruct (Encode b); simpl; [|done]. by rewrite app_assoc.
Qed.

(** X10. [encodeURIComponent] goes through a concatenation whose first part is
    well formed: the result is the two encodings, one after the other, and
    it fails exactly when the second part does. *)
Theorem Encode_app (a b : jsstring) :
  isWellFormed a = true →
  Encode (a ++ b) = Encode a ≫= λ a', (a' ++.) <$> Encode b.
Proof. by apply (Encode_app_bounded (length a)). Qed.

Lemma Encode_app_witness :
  Encode (lit "Hi" ++ lit " there")
  = Encode (lit "Hi") ≫= λ a', (a' ++.) <$> Encode (lit " there").
Proof. apply Encode_app. reflexivity. Defined.

(** ** [split], [join] and [trim] *)

Lemma split_nonempty (sep : N) (s : jsstring) : split sep s ≠ [].
Proof.
  destruct s as [|c s]; simpl; [done|].
  case_decide; [done|]. by destruct (split sep s).
Qed.

Lemma join_cons (sep piece : jsstring) (pieces : list jsstring) :
  pieces ≠ [] → join sep (piece :: pieces) = piece ++ sep ++ join sep pieces.
Proof. by destruct pieces. Qed.

(** Joining the pieces of a split with the separator gives the string
    back. *)
Lemma join_split (sep : N) (s : jsstring) : join [sep] (split sep s) = s.
Proof.
  induction s as [|c s IH]; simpl; [reflexivity|]. case_decide as E.
  - subst c. rewrite join_cons by apply split_nonempty. simpl. by rewrite IH.
  - destruct (split sep s) as [|piece pieces] eqn:Hs.
    { by destruct (split_nonempty sep s). }
    rewrite <- IH. by destruct pieces.
Qed.

Lemma split_no_sep (sep : N) (s : jsstring) : sep ∉ s → split sep s = [s].
Proof.
  induction s as [|c s IH]; simpl; [reflexivity|].
  rewrite not_elem_of_cons. intros [Hc Hs].
  rewrite decide_False by congruence. by rewrite IH.
Qed.

Lemma split_first (sep : N) (s rest : jsstring) :
  sep ∉ s → split sep (s ++ sep :: rest) = s :: split sep rest.
Proof.
  induction s as [|c s IH]; simpl.
  - intros _. by rewrite decide_True.
  - rewrite not_elem_of_cons. intros [Hc Hs].
    rewrite decide_False by congruence. by rewrite IH.
Qed.

(** Splitting a joined list of pieces gives the pieces back, when there is
    a piece and none of them holds the separator. *)
Lemma split_join (sep : N) (pieces : list jsstring) :
  pieces ≠ [] → Forall (λ piece, sep ∉ piece) pieces →
  split sep (join [sep] pieces) = pieces.
Proof.
  induction pieces as [|piece pieces IH]; [done|]. intros _ Hall.
  apply Forall_cons in Hall as [Hp Hall].
  destruct pieces as [|piece' pieces].
  - by apply split_no_sep.
  - rewrite join_cons by done.
    change ([sep] ++ join [sep] (piece' :: pieces))
      with (sep :: join [sep] (piece' :: pieces)).
    rewrite split_first by done. by rewrite IH.
Qed.

Lemma trimStart_app (s : jsstring) (c : N) :
  trimStart (s ++ [c])
  = if bool_decide (trimStart s = []) then trimStart [c] else trimStart s ++ [c].
Proof.
  induction s as [|x s IH]; simpl; [reflexivity|].
  destruct (isWhiteSpace x); [exact IH|]. by rewrite bool_decide_eq_false_2.
Qed.

Lemma trimStart_fixed (s : jsstring) :
  head (trimStart s) ≠ None →
  ∃ c rest, trimStart s = c :: rest ∧ isWhiteSpace c = false.
Proof.
  induction s as [|x s IH]; simpl; [done|].
  destruct (isWhiteSpace x) eqn:E; [exact IH|]. eauto.
Qed.

Lemma trimStart_no_space (c : N) (s : jsstring) :
  isWhiteSpace c = false → trimStart (c :: s) = c :: s.
Proof. intros E. simpl. by rewrite E. Qed.

Lemma trimEnd_snoc_space (s : jsstring) (c : N) :
  isWhiteSpace c = true → trimEnd (s ++ [c]) = trimEnd s.
Proof.
  intros E. unfold trimEnd. rewrite reverse_app. simpl. by rewrite E.
Qed.

Lemma trimEnd_snoc_no_space (s : jsstring) (c : N) :
  isWhiteSpace c = false → trimEnd (s ++ [c]) = s ++ [c].
Proof.
  intros E. unfold trimEnd. rewrite reverse_app. simpl. rewrite E.
  by rewrite reverse_cons, reverse_involutive.
Qed.

(** [trimEnd] peels white space off the end and nothing else. *)
Lemma trimEnd_cons (c : N) (s : jsstring) :
  trimEnd (c :: s)
  = if bool_decide (trimEnd s = []) then (if isWhiteSpace c then [] else [c])
    else c :: trimEnd s.
Proof.
  induction s as [|x s IH] using rev_ind.
  - unfold trimEnd; simpl. by destruct (isWhiteSpace c).
  - change (c :: s ++ [x]) with ((c :: s) ++ [x]).
    destruct (isWhiteSpace x) eqn:E.
    + by rewrite !trimEnd_snoc_space.
    + rewrite !trimEnd_snoc_no_space by done.
      rewrite bool_decide_eq_false_2; [done | by destruct s].
Qed.

Lemma trim_snoc_space (s : jsstring) (c : N) :
  isWhiteSpace c = true → trim (s ++ [c]) = trim s.
Proof.
  intros E. unfold trim. rewrite trimStart_app. case_bool_decide as Hs.
  - simpl. by rewrite E, Hs.
  - by apply trimEnd_snoc_space.
Qed.

(** A trimmed string neither starts nor ends with white space. *)
Lemma trim_ends (s : jsstring) :
  match trim s with
  | [] => True
  | c :: _ => isWhiteSpace c = false
  end
  ∧ match last (trim s) with
    | None => True
    | Some c => isWhiteSpace c = false
    end.
Proof.
  unfold trim. split.
  - destruct (trimStart s) as [|c t] eqn:Ht; [done|].
    assert (Hc : isWhiteSpace c = false).
    { destruct (trimStart_fixed s) as (c' & t' & Ht' & Hc'); [by rewrite Ht|].
      congruence. }
    rewrite trimEnd_cons. case_bool_decide; [by rewrite Hc | done].
  - generalize (trimStart s). intros t.
    induction t as [|x t IH] using rev_ind; [done|].
    destruct (isWhiteSpace x) eqn:E.
    + by rewrite trimEnd_snoc_space.
    + rewrite trimEnd_snoc_no_space by done. by rewrite last_snoc.
Qed.

Lemma trim_fixed (s : jsstring) :
  match s with [] => True | c :: _ => isWhiteSpace c = false end →
  match last s with None => True | Some c => isWhiteSpace c = false end →
  trim s = s.
Proof.
  intros Hhead Hlast. unfold trim.
  assert (trimStart s = s) as -> by (destruct s; [done | by apply trimStart_no_space]).
  destruct s as [|x s _] using rev_ind; [done|].
  rewrite last_snoc in Hlast. by apply trimEnd_snoc_no_space.
Qed.

Lemma trim_idempotent (s : jsstring) : trim (trim s) = trim s.
Proof. destruct (trim_ends s). by apply trim_fixed. Qed.

(** ** Rows of an uploaded file *)

(** Membership in a given list of code units, by evaluation. *)
Ltac decide_elem :=
  match goal with
  | |- ?x ∉ ?l => apply (bool_decide_eq_false_1 (x ∈ l)); vm_compute; reflexivity
  | |- ?x ∈ ?l => apply (bool_decide_eq_true_1 (x ∈ l)); vm_compute; reflexivity
  end.

Lemma csvRow_no_comma (line : jsstring) : 0x2C ∉ line → csvRow line = (line, []).
Proof. intros H. unfold csvRow. by rewrite split_no_sep. Qed.

Lemma csvRow_comma (type rest : jsstring) :
  0x2C ∉ type → csvRow (type ++ 0x2C :: rest) = (type, trim rest).
Proof.
  intros H. unfold csvRow. rewrite split_first by done.
  change (lit ",") with [0x2C]. by rewrite join_split.
Qed.

(** X11. A line is cut at its first comma: what comes before is the type, what
    comes after, further commas included and white space at both ends
    removed, is the data. A line without a comma has no data. *)
Theorem csvRow_first_comma (line : jsstring) :
  (0x2C ∉ line → csvRow line = (line, []))
  ∧ (∀ type rest, line = type ++ 0x2C :: rest → 0x2C ∉ type →
                  csvRow line = (type, trim rest)).
Proof.
  split; [apply csvRow_no_comma|]. intros type rest -> H. by apply csvRow_comma.
Qed.

Lemma csvRow_first_comma_witness :
  csvRow (lit "text") = (lit "text", [])
  ∧ csvRow (lit "text, Hello, world ") = (lit "text", lit "Hello, world").
Proof.
  split.
  - apply (proj1 (csvRow_first_comma (lit "text"))). decide_elem.
  - apply (proj2 (csvRow_first_comma (lit "text, Hello, world "))
             (lit "text") (lit " Hello, world ")); [reflexivity|]. decide_elem.
Defined.

(** X12. A carriage return left at the end of a line by a file with CRLF line
    ends does not reach the data, nor the type when the line has a
    comma. *)
Theorem csvRow_carriage_return (line : jsstring) :
  (csvRow (line ++ [0x0D])).2 = (csvRow line).2
  ∧ (0x2C ∈ line → (csvRow (line ++ [0x0D])).1 = (csvRow line).1).
Proof.
  destruct (decide (0x2C ∈ line)) as [Hin | Hnot].
  - apply list_elem_of_split_l in Hin as (type & rest & -> & Htype).
    rewrite <- app_assoc. simpl app. rewrite !csvRow_comma by done. simpl.
    by rewrite trim_snoc_space.
  - split; [|done]. rewrite !csvRow_no_comma; [done | done |].
    rewrite not_elem_of_app, not_elem_of_cons. split_and!; [done | lia | apply not_elem_of_nil].
Qed.

Lemma csvRow_carriage_return_witness :
  (csvRow (lit "url,example.com" ++ [0x0D])).1 = (csvRow (lit "url,example.com")).1.
Proof.
  apply (proj2 (csvRow_carriage_return (lit "url,example.com"))). decide_elem.
Defined.

Lemma split_pieces (sep : N) (s : jsstring) :
  Forall (λ piece, sep ∉ piece) (split sep s).
Proof.
  induction s as [|c s IH]; simpl.
  - repeat constructor. apply not_elem_of_nil.
  - case_decide as E.
    + constructor; [apply not_elem_of_nil | exact IH].
    + destruct (split sep s) as [|piece pieces] eqn:Hs;
        [by destruct (split_nonempty sep s)|].
      apply Forall_cons in IH as [Hp Hps]. constructor; [|exact Hps].
      rewrite not_elem_of_cons. split; [congruence | exact Hp].
Qed.

Lemma csvRow_type (line : jsstring) : 0x2C ∉ (csvRow line).1.
Proof.
  unfold csvRow. pose proof (split_pieces 0x2C line) as H.
  destruct (split 0x2C line) as [|type dataParts]; simpl.
  - apply not_elem_of_nil.
  - by apply Forall_cons in H as [H _].
Qed.

Lemma csvEntry_Some opts u i line qr :
  csvEntry opts u i line = Some qr →
  ∃ data, QR.data qr = Str data ∧ data = (csvRow line).2 ∧ data ≠ []
          ∧ render u data = Some (QR.dataUrl qr)
          ∧ QR.type qr = (csvRow line).1 ∧ QR.options qr = opts.
Proof.
  unfold csvEntry. destruct (csvRow line) as [type data]. simpl.
  case_bool_decide as Hd; [discriminate|].
  intros (dataUrl & Hr & ->)%fmap_Some. exists data. by simpl.
Qed.

Lemma csvLoop_elem opts u i lines batchQRs qr :
  qr ∈ csvLoop opts u i lines batchQRs →
  qr ∈ batchQRs ∨ ∃ j line, line ∈ lines ∧ csvEntry opts u j line = Some qr.
Proof.
  revert i batchQRs. induction lines as [|line lines IH]; intros i batchQRs; simpl.
  - by left.
  - intros [Hin | (j & l & Hl & Hj)]%IH.
    + destruct (csvEntry opts u i line) as [qr'|] eqn:E; [|by left].
      apply elem_of_app in Hin as [Hin | Hin%list_elem_of_singleton]; [by left|].
      subst qr'. right. exists i, line. split; [left | done].
    + right. exists j, l. split; [by right | done].
Qed.

(** X13. Every entry an upload adds holds the text after the first comma of its
    line as it stands, trimmed and not empty, rendered as it is and not
    passed through [generateQRData]; its type is the text before that
    comma, whatever it is. *)
Theorem csvBatch_entries opts u text qr :
  qr ∈ csvBatch opts u text →
  ∃ line data,
    line ∈ csvLines text
    ∧ csvRow line = (QR.type qr, data)
    ∧ QR.data qr = Str data ∧ data ≠ [] ∧ trim data = data
    ∧ render u data = Some (QR.dataUrl qr)
    ∧ (0x2C ∉ QR.type qr)
    ∧ QR.options qr = opts.
Proof.
  unfold csvBatch. intros [Hin | (j & line & Hline & Hj)]%csvLoop_elem.
  { by apply elem_of_nil in Hin. }
  apply csvEntry_Some in Hj as (data & Hdata & Hrow & Hne & Hr & Hty & Hopts).
  exists line, data. split_and!; try done.
  - rewrite <- (take_drop 1 (csvLines text)). apply elem_of_app. by right.
  - rewrite Hty, Hrow. by destruct (csvRow line).
  - rewrite Hrow. unfold csvRow.
    destruct (split 0x2C line); [done | apply trim_idempotent].
  - rewrite Hty. apply csvRow_type.
Qed.

Example csv_sample :
  QR.data <$> csvBatch initialOptions
                (uploadOf (lit "type,data" ++ [0x0D; 0x0A]
                           ++ lit "url,example.com" ++ [0x0D; 0x0A]
                           ++ [0x20; 0x0D; 0x0A]
                           ++ lit "text, Hello, world " ++ [0x0A]
                           ++ lit "wifi" ++ [0x0A]
                           ++ lit "sms,  "))
                (lit "type,data" ++ [0x0D; 0x0A]
                 ++ lit "url,example.com" ++ [0x0D; 0x0A]
                 ++ [0x20; 0x0D; 0x0A]
                 ++ lit "text, Hello, world " ++ [0x0A]
                 ++ lit "wifi" ++ [0x0A]
                 ++ lit "sms,  ")
  = [Str (lit "example.com"); Str (lit "Hello, world")].
Proof. vm_compute. reflexivity. Qed.

Lemma csvBatch_entries_witness :
  ∃ line data,
    line ∈ csvLines (lit "type,data" ++ [0x0A] ++ lit "url, example.com ")
    ∧ csvRow line = (lit "url", data)
    ∧ Str (lit "example.com") = Str data ∧ data ≠ [] ∧ trim data = data
    ∧ render (uploadOf []) data = Some (lit "data:image/png;base64,CCCC")
    ∧ (0x2C ∉ lit "url")
    ∧ initialOptions = initialOptions.
Proof.
  apply (csvBatch_entries initialOptions (uploadOf [])
           (lit "type,data" ++ [0x0A] ++ lit "url, example.com ")
           {| QR.id := lit "1700000000001"; QR.type := lit "url";
              QR.data := Str (lit "example.com");
              QR.dataUrl := lit "data:image/png;base64,CCCC";
              QR.options := initialOptions |}).
  assert (csvBatch initialOptions (uploadOf [])
            (lit "type,data" ++ [0x0A] ++ lit "url, example.com ")
          = [{| QR.id := lit "1700000000001"; QR.type := lit "url";
                QR.data := Str (lit "example.com");
                QR.dataUrl := lit "data:image/png;base64,CCCC";
                QR.options := initialOptions |}]) as ->
    by (vm_compute; reflexivity).
  left.
Defined.

(** ** The history after an upload *)

Lemma csvLoop_length opts u i lines batchQRs :
  (length (csvLoop opts u i lines batchQRs) ≤ length batchQRs + length lines)%nat.
Proof.
  revert i batchQRs. induction lines as [|line lines IH]; intros i batchQRs; simpl.
  - lia.
  - etrans; [apply IH|]. destruct (csvEntry opts u i line); [|lia].
    rewrite length_app. simpl. lia.
Qed.

(** X14. An upload drops nothing and cuts nothing: the history from before is
    the tail of the new one, with at most one new entry per non-blank line
    after the first in front of it, and the preview and the options stay as
    they were. An upload without a file changes nothing. *)
Theorem upload_keeps_history (u : Upload) (st : App) :
  generatedQRs st `suffix_of` generatedQRs (handleCSVUpload u st)
  ∧ currentQR (handleCSVUpload u st) = currentQR st
  ∧ qrOptions (handleCSVUpload u st) = qrOptions st
  ∧ match file u with
    | None => handleCSVUpload u st = st
    | Some text =>
      (length (generatedQRs (handleCSVUpload u st))
       ≤ length (generatedQRs st) + (length (csvLines text) - 1))%nat
    end.
Proof.
  unfold handleCSVUpload. destruct (file u) as [text|]; [|done]. simpl.
  split_and!; try done.
  - by eexists.
  - rewrite length_app. unfold csvBatch.
    pose proof (csvLoop_length (qrOptions st) u 0 (drop 1 (csvLines text)) []) as H.
    rewrite length_drop in H. simpl in H. lia.
Qed.

(** X15. The first non-blank line counts as the header, whatever it holds: a
    file with no other non-blank line adds nothing. *)
Theorem upload_header_only (u : Upload) (st : App) (text : jsstring) :
  file u = Some text → (length (csvLines text) ≤ 1)%nat →
  handleCSVUpload u st = st.
Proof.
  intros Hfile Hlen. unfold handleCSVUpload, csvBatch. rewrite Hfile.
  rewrite drop_ge by done. by destruct st.
Qed.

Lemma upload_header_only_witness :
  handleCSVUpload (uploadOf ([0x0A] ++ lit "url,https://example.com" ++ [0x0A]))
    initialApp
  = initialApp.
Proof.
  apply (upload_header_only _ _ ([0x0A] ++ lit "url,https://example.com" ++ [0x0A]));
    [reflexivity|].
  vm_compute. lia.
Defined.




Example upload_eleven :
  length (generatedQRs (handleCSVUpload (uploadOf (csvOfRows 11)) initialApp)) = 11%nat
  ∧ length (generatedQRs
              (handleGenerate (lit "text") textRun
                 (handleCSVUpload (uploadOf (csvOfRows 11)) initialApp))) = 10%nat.
Proof. split; vm_compute; reflexivity. Qed.

Lemma csvLoop_spec opts u i lines batchQRs :
  csvLoop opts u i lines batchQRs
  = batchQRs ++ omap id (imap (λ j, csvEntry opts u (i + j)) lines).
Proof.
  revert i batchQRs. induction lines as [|line lines IH]; intros i batchQRs.
  - simpl. by rewrite app_nil_r.
  - cbn [csvLoop imap omap list_omap]. rewrite IH, Nat.add_0_r.
    assert (imap ((λ j, csvEntry opts u (i + j)) ∘ S) lines
            = imap (λ j, csvEntry opts u (S i + j)) lines) as ->.
    { apply imap_ext. intros j x _. simpl. f_equal. lia. }
    destruct (csvEntry opts u i line); simpl; [by rewrite <- app_assoc | done].
Qed.

(** X17. The entries of an upload stand in the order of their lines in the file,
    in front of the history from before: the first row of the file comes
    first, the last row comes just before the older entries. *)
Theorem upload_in_file_order (u : Upload) (st : App) (text : jsstring) :
  file u = Some text →
  generatedQRs (handleCSVUpload u st)
  = omap id (imap (csvEntry (qrOptions st) u) (drop 1 (csvLines text)))
    ++ generatedQRs st.
Proof.
  intros Hfile. unfold handleCSVUpload, csvBatch. rewrite Hfile. simpl.
  by rewrite csvLoop_spec.
Qed.

Lemma upload_in_file_order_witness :
  QR.data <$> generatedQRs
                (handleCSVUpload
                   (uploadOf (lit "type,data" ++ [0x0A] ++ lit "url,a.example"
                              ++ [0x0A] ++ lit "text,second row"))
                   fullHistory)
  = [Str (lit "a.example"); Str (lit "second row")]
    ++ replicate 10 (Str (lit "https://example.com")).
Proof.
  rewrite (upload_in_file_order _ _
             (lit "type,data" ++ [0x0A] ++ lit "url,a.example"
              ++ [0x0A] ++ lit "text,second row")) by reflexivity.
  vm_compute. reflexivity.
Defined.

(** ** The regular expression matcher *)

Lemma nullable_matches (r : regex) : nullable r = true ↔ matches r [].
Proof.
  split.
  - induction r as [| |p|r1 IH1 r2 IH2|r1 IH1 r2 IH2|r IH]; simpl;
      try discriminate.
    + constructor.
    + intros [H1 H2]%andb_true_iff.
      change (@nil N) with (@nil N ++ []). constructor; auto.
    + intros [H | H]%orb_true_iff; [apply matches_Alt_l | apply matches_Alt_r]; auto.
    + constructor.
  - intros H. remember [] as s eqn:Hs.
    induction H as [|p c Hc|r1 r2 s1 s2 _ IH1 _ IH2|r1 r2 s _ IH|r1 r2 s _ IH
                    |r|r s1 s2 _ _ _ _]; simpl; try done.
    + apply app_eq_nil in Hs as [-> ->]. by rewrite IH1, IH2.
    + by rewrite IH.
    + rewrite IH by done. apply orb_true_r.
Qed.

Lemma deriv_sound (c : N) (r : regex) (s : jsstring) :
  matches (deriv c r) s → matches r (c :: s).
Proof.
  revert s. induction r as [| |p|r1 IH1 r2 IH2|r1 IH1 r2 IH2|r IH]; simpl; intros s H.
  - inversion H.
  - inversion H.
  - destruct (p c) eqn:Hc; inversion H; subst. by constructor.
  - assert (Hseq : ∀ t, matches (Seq (deriv c r1) r2) t → matches (Seq r1 r2) (c :: t)).
    { intros t Ht. inversion Ht as [| |? ? s1 s2 H1 H2| | | |]; subst.
      change (c :: s1 ++ s2) with ((c :: s1) ++ s2). constructor; auto. }
    destruct (nullable r1) eqn:Hn; [|by apply Hseq].
    inversion H as [| | |? ? ? H1|? ? ? H2| |]; subst; [by apply Hseq|].
    change (c :: s) with ([] ++ c :: s). constructor; [|by apply IH2].
    by apply nullable_matches.
  - inversion H; subst; [apply matches_Alt_l | apply matches_Alt_r]; auto.
  - inversion H as [| |? ? s1 s2 H1 H2| | | |]; subst.
    change (c :: s1 ++ s2) with ((c :: s1) ++ s2). constructor; auto.
Qed.

Lemma deriv_complete (r : regex) (t : jsstring) :
  matches r t → ∀ c s, t = c :: s → matches (deriv c r) s.
Proof.
  induction 1 as [|p c' Hc|r1 r2 s1 s2 H1 IH1 H2 IH2|r1 r2 s' _ IH|r1 r2 s' _ IH
                  |r|r s1 s2 H1 IH1 H2 IH2]; intros c s Hs; simpl.
  - discriminate.
  - injection Hs as -> <-. rewrite Hc. constructor.
  - destruct s1 as [|x s1]; simpl in Hs.
    + apply nullable_matches in H1. rewrite H1.
      apply matches_Alt_r. by apply IH2.
    + injection Hs as -> <-.
      assert (matches (Seq (deriv c r1) r2) (s1 ++ s2))
        by (constructor; [by apply IH1 | done]).
      destruct (nullable r1); [by apply matches_Alt_l | done].
  - apply matches_Alt_l. by apply IH.
  - apply matches_Alt_r. by apply IH.
  - discriminate.
  - destruct s1 as [|x s1]; simpl in Hs.
    + by apply IH2.
    + injection Hs as -> <-. constructor; [by apply IH1 | done].
Qed.

(** The matcher decides the language of the expression. *)
Lemma test_matches (r : regex) (s : jsstring) : test r s = true ↔ matches r s.
Proof.
  revert r. induction s as [|c s IH]; intros r; simpl.
  - apply nullable_matches.
  - rewrite IH. split; [apply deriv_sound|].
    intros H. by apply (deriv_complete r (c :: s)).
Qed.

Lemma matches_Star_Class (p : N → bool) (s : jsstring) :
  matches (Star (Class p)) s ↔ Forall (λ c, p c = true) s.
Proof.
  split.
  - intros H. remember (Star (Class p)) as r eqn:Hr.
    induction H as [| | | | |r'|r' s1 s2 H1 _ H2 IH2]; try discriminate.
    + constructor.
    + injection Hr as ->. inversion H1; subst. constructor; auto.
  - induction 1 as [|c s Hc _ IH]; [constructor|].
    change (c :: s) with ([c] ++ s). constructor; [by constructor | done].
Qed.

Lemma matches_Star (r : regex) (s : jsstring) :
  matches (Star r) s ↔ ∃ pieces, s = concat pieces ∧ Forall (matches r) pieces.
Proof.
  split.
  - intros H. remember (Star r) as r0 eqn:Hr.
    induction H as [| | | | |r'|r' s1 s2 H1 _ H2 IH2]; try discriminate.
    + by exists [].
    + injection Hr as ->. destruct IH2 as (pieces & -> & Hall); [done|].
      exists (s1 :: pieces). split; [done | by constructor].
  - intros (pieces & -> & Hall).
    induction Hall as [|piece pieces Hp _ IH]; simpl; by constructor.
Qed.

(** ** [domainPattern] *)

Lemma forallb_Forall (p : N → bool) (s : jsstring) :
  forallb p s = true ↔ Forall (λ c, p c = true) s.
Proof.
  induction s as [|c s IH]; simpl.
  - split; [constructor | done].
  - rewrite andb_true_iff, Forall_cons, IH. done.
Qed.

Lemma isAlnum_isAlnumDash (c : N) : isAlnum c = true → isAlnumDash c = true.
Proof. intros H. unfold isAlnumDash. by rewrite H. Qed.

Lemma isLabel_cons_snoc (c c' : N) (m : jsstring) :
  isLabel (c :: m ++ [c']) = true
  ↔ isAlnum c = true ∧ Forall (λ x, isAlnumDash x = true) m ∧ isAlnum c' = true.
Proof.
  unfold isLabel. change (c :: m ++ [c']) with ((c :: m) ++ [c']).
  rewrite last_snoc. simpl. rewrite forallb_app. simpl.
  rewrite !andb_true_iff, forallb_Forall. split.
  - intros [[[? [? _]] ?] ?]; done.
  - intros (Hc & Hm & Hc'). split_and!; try done; by apply isAlnum_isAlnumDash.
Qed.

Lemma isLabel_singleton (c : N) : isLabel [c] = true ↔ isAlnum c = true.
Proof.
  unfold isLabel. simpl. rewrite !andb_true_iff. split; [by intros [_ ?]|].
  intros Hc. split_and!; try done. by apply isAlnum_isAlnumDash.
Qed.

Lemma matches_label (l : jsstring) : matches labelPattern l ↔ isLabel l = true.
Proof.
  unfold labelPattern, Opt. split.
  - intros H. inversion H as [| |? ? s1 s2 H1 H2| | | |]; subst.
    inversion H1 as [|? c Hc| | | | |]; subst.
    inversion H2 as [| | |? ? ? H3|? ? ? H3| |]; subst.
    + inversion H3 as [| |? ? m s3 Hm H4| | | |]; subst.
      inversion H4 as [|? c' Hc'| | | | |]; subst.
      apply matches_Star_Class in Hm. by apply isLabel_cons_snoc.
    + inversion H3; subst. by apply isLabel_singleton.
  - destruct l as [|c l]; [done|].
    destruct l as [|c' m _] using rev_ind.
    + intros Hc%isLabel_singleton. change [c] with ([c] ++ []).
      constructor; [by constructor|]. apply matches_Alt_r. constructor.
    + intros (Hc & Hm & Hc')%isLabel_cons_snoc.
      change (c :: m ++ [c']) with ([c] ++ (m ++ [c'])).
      constructor; [by constructor|]. apply matches_Alt_l.
      constructor; [by apply matches_Star_Class | by constructor].
Qed.

Lemma isLabel_no_dot (l : jsstring) : isLabel l = true → 0x2E ∉ l.
Proof.
  unfold isLabel. rewrite !andb_true_iff. intros [[Hall _] _].
  apply forallb_Forall in Hall. intros Hin.
  rewrite Forall_forall in Hall. specialize (Hall _ Hin).
  vm_compute in Hall. discriminate.
Qed.

Lemma join_concat (sep : N) (l0 : jsstring) (ls : list jsstring) :
  join [sep] (l0 :: ls) = l0 ++ concat ((sep ::.) <$> ls).
Proof.
  revert l0. induction ls as [|l1 ls IH]; intros l0.
  - simpl. by rewrite app_nil_r.
  - rewrite join_cons by done. by rewrite IH.
Qed.

Lemma dot_pieces (pieces : list jsstring) :
  Forall (matches (Seq (Class isDot) labelPattern)) pieces →
  ∃ ls, pieces = (0x2E ::.) <$> ls ∧ Forall (λ l, isLabel l = true) ls.
Proof.
  induction 1 as [|piece pieces Hp _ (ls & -> & Hls)]; [by exists []|].
  inversion Hp as [| |? ? s1 l H1 H2| | | |]; subst.
  inversion H1 as [|? d Hd| | | | |]; subst.
  apply bool_decide_eq_true in Hd as ->. apply matches_label in H2.
  exists (l :: ls). split; [done | by constructor].
Qed.

Lemma matches_domain (s : jsstring) :
  matches domainPattern s
  ↔ ∃ l0 ls, s = join [0x2E] (l0 :: ls)
             ∧ isLabel l0 = true ∧ Forall (λ l, isLabel l = true) ls.
Proof.
  unfold domainPattern. split.
  - intros H. inversion H as [| |? ? l0 s2 H1 H2| | | |]; subst.
    apply matches_label in H1.
    apply matches_Star in H2 as (pieces & -> & (ls & -> & Hls)%dot_pieces).
    exists l0, ls. by rewrite join_concat.
  - intros (l0 & ls & -> & H0 & Hls). rewrite join_concat.
    constructor; [by apply matches_label|]. apply matches_Star.
    exists ((0x2E ::.) <$> ls). split; [done|].
    apply Forall_fmap. eapply Forall_impl; [exact Hls|]. simpl.
    intros l Hl. change (0x2E :: l) with ([0x2E] ++ l).
    constructor; [by constructor | by apply matches_label].
Qed.

Lemma test_domainPattern (s : jsstring) :
  test domainPattern s = forallb isLabel (split 0x2E s).
Proof.
  apply eq_true_iff_eq. rewrite test_matches, matches_domain. split.
  - intros (l0 & ls & -> & H0 & Hls).
    assert (Hall : Forall (λ l, isLabel l = true) (l0 :: ls)) by by constructor.
    rewrite split_join; [| done |].
    + clear -Hall. induction Hall as [|l ls' Hl _ IH]; [done|].
      simpl. by rewrite Hl, IH.
    + eapply Forall_impl; [exact Hall|]. apply isLabel_no_dot.
  - intros Hall. destruct (split 0x2E s) as [|l0 ls] eqn:Hs.
    { by destruct (split_nonempty 0x2E s). }
    exists l0, ls. rewrite <- Hs, join_split. simpl in Hall.
    apply andb_true_iff in Hall as [H0 Hls]. split_and!; try done.
    clear -Hls. induction ls as [|l ls IH]; [constructor|].
    simpl in Hls. apply andb_true_iff in Hls as [Hl Hls]. constructor; auto.
Qed.

(** X18. [domainPattern] accepts exactly the strings that are labels separated
    by dots: every piece between two dots, before the first and after the
    last, is a non-empty run of letters, digits and hyphens with no hyphen
    at either end. *)
Theorem domainPattern_labels (s : jsstring) :
  test domainPattern s = true
  ↔ Forall (λ l, isLabel l = true) (split 0x2E s).
Proof.
  rewrite test_domainPattern. generalize (split 0x2E s). intros ls.
  induction ls as [|l ls IH]; simpl.
  - split; [constructor | done].
  - by rewrite andb_true_iff, Forall_cons, IH.
Qed.

Lemma domainPattern_labels_witness :
  Forall (λ l, isLabel l = true) (split 0x2E (lit "sub-domain.example.co.uk")).
Proof.
  apply (proj1 (domainPattern_labels (lit "sub-domain.example.co.uk"))).
  reflexivity.
Defined.

Example domainPattern_samples :
  test domainPattern (lit "example.com") = true
  ∧ test domainPattern (lit "sub-domain.example.co.uk") = true
  ∧ test domainPattern (lit "localhost") = true
  ∧ test domainPattern (lit "example.com/path") = false
  ∧ test domainPattern (lit "example.com:8080") = false
  ∧ test domainPattern (lit "example..com") = false
  ∧ test domainPattern (lit "-example.com") = false
  ∧ test domainPattern (lit "example.com.") = false
  ∧ test domainPattern [] = false.
Proof. repeat split. Qed.

(** ** From validation to encoding *)

(** X19. A [url] field that [urlSchema] accepts is not empty and is encoded
    without an exception: as it is when it starts with [http://] or
    [https://] and [new URL] parses it, and with [https://] in front when
    it is a dot-separated sequence of labels. Nothing else is accepted. *)
Theorem urlSchema_encodes (canParse : jsstring → bool)
    (data : gmap string value) :
  urlSchema canParse data = true →
  ∃ val, get data "url" = Str val ∧ val ≠ []
    ∧ ((lit "http://" `prefix_of` val ∨ lit "https://" `prefix_of` val)
       ∧ canParse val = true
       ∧ generateQRData (lit "url") data = Return (Str val)
       ∨ ¬ (lit "http://" `prefix_of` val ∨ lit "https://" `prefix_of` val)
         ∧ forallb isLabel (split 0x2E val) = true
         ∧ generateQRData (lit "url") data = Return (Str (lit "https://" ++ val))).
Proof.
  unfold urlSchema, urlRefine.
  destruct (get data "url") as [|val|] eqn:E; try discriminate.
  intros [Hlen Href]%andb_true_iff. apply bool_decide_eq_true in Hlen.
  exists val. split; [done|]. split; [by destruct val; simpl in Hlen; [lia|]|].
  rewrite (encode_url_string data val E). rewrite <- !startsWith_prefix.
  destruct (startsWith val (lit "http://")) eqn:E1,
           (startsWith val (lit "https://")) eqn:E2; cbn [orb] in *;
    try (left; split_and!; by auto).
  right. split_and!; [|by rewrite <- test_domainPattern | done].
  intros [? | ?]; discriminate.
Qed.

Lemma urlSchema_encodes_witness :
  ∃ val, get (Url.data {| Url.url := lit "example.com" |}) "url" = Str val
    ∧ val ≠ []
    ∧ ((lit "http://" `prefix_of` val ∨ lit "https://" `prefix_of` val)
       ∧ true = true
       ∧ generateQRData (lit "url") (Url.data {| Url.url := lit "example.com" |})
         = Return (Str val)
       ∨ ¬ (lit "http://" `prefix_of` val ∨ lit "https://" `prefix_of` val)
         ∧ forallb isLabel (split 0x2E val) = true
         ∧ generateQRData (lit "url") (Url.data {| Url.url := lit "example.com" |})
           = Return (Str (lit "https://" ++ val))).
Proof.
  apply (urlSchema_encodes (λ _, true)
           (Url.data {| Url.url := lit "example.com" |})).
  vm_compute. reflexivity.
Defined.

Lemma join_elem (sep c : N) (pieces : list jsstring) :
  c ∈ join [sep] pieces → c = sep ∨ ∃ piece, piece ∈ pieces ∧ c ∈ piece.
Proof.
  induction pieces as [|piece pieces IH]; [by intros ?%elem_of_nil|].
  destruct pieces as [|piece' pieces].
  - simpl. intros Hc. right. exists piece. split; [left | done].
  - rewrite join_cons by done. rewrite !elem_of_app, list_elem_of_singleton.
    intros [Hc | [Hc | Hc]].
    + right. exists piece. split; [left | done].
    + by left.
    + destruct (IH Hc) as [? | (p & Hp & Hcp)]; [by left|].
      right. exists p. split; [by right | done].
Qed.

(** X20. A [url] field accepted without [http://] or [https://] in front holds
    letters, digits, hyphens and dots only: a path, a port, a query or a
    space makes the schema reject it. *)
Theorem bare_url_characters (canParse : jsstring → bool) (val : jsstring) :
  startsWith val (lit "http://") = false →
  startsWith val (lit "https://") = false →
  urlRefine canParse val = true →
  Forall (λ c, isAlnumDash c = true ∨ c = 0x2E) val.
Proof.
  intros E1 E2. unfold urlRefine. rewrite E1, E2. simpl.
  rewrite test_domainPattern. intros Hall.
  apply Forall_forall. intros c Hc.
  rewrite <- (join_split 0x2E val) in Hc.
  apply join_elem in Hc as [-> | (piece & Hp & Hc)]; [by right|]. left.
  assert (Hl : isLabel piece = true).
  { revert Hall Hp. generalize (split 0x2E val). intros l Hall Hp.
    induction Hp as [|? ? ? _ IH]; simpl in Hall;
      apply andb_true_iff in Hall as [? ?]; auto. }
  unfold isLabel in Hl. rewrite !andb_true_iff in Hl.
  destruct Hl as [[Hl _] _]. apply forallb_Forall in Hl.
  rewrite Forall_forall in Hl. by apply Hl.
Qed.

Lemma bare_url_characters_witness :
  Forall (λ c, isAlnumDash c = true ∨ c = 0x2E) (lit "my-site.example.com").
Proof.
  apply (bare_url_characters (λ _, false)); reflexivity.
Defined.

Lemma encode_wifi_fields (f : Wifi.t) :
  generateQRData (lit "wifi") (Wifi.data f)
  = Return (Str (lit "WIFI:T:" ++ Wifi.name (Wifi.security f)
                 ++ lit ";S:" ++ Wifi.ssid f
                 ++ lit ";P:" ++ orEmpty (Wifi.password f)
                 ++ lit ";H:" ++ hiddenText (Wifi.hidden f)
                 ++ lit ";;")).
Proof.
  switch. destruct (get_Wifi f) as (-> & -> & -> & ->).
  rewrite or_else_Str. by destruct (Wifi.hidden f) as [[]|].
Qed.

Lemma wifiSchema_fields (data : gmap string value) :
  wifiSchema data = true →
  Wifi.ssid (wifiFields data) ≠ []
  ∧ ∀ k, k ∈ propertiesRead (lit "wifi") →
         get data k = get (Wifi.data (wifiFields data)) k.
Proof.
  unfold wifiSchema. rewrite !andb_true_iff. intros [[[Hs Hp] Hsec] Hh].
  destruct (get data "ssid") as [|ssid|] eqn:Es; try discriminate.
  destruct (get data "security") as [|sec|] eqn:Esec; try discriminate.
  apply bool_decide_eq_true in Hs, Hsec.
  split.
  { unfold wifiFields. rewrite Es. simpl. destruct ssid; simpl in Hs; [lia | done]. }
  assert (Hname : Str (Wifi.name (Wifi.security (wifiFields data))) = Str sec).
  { unfold wifiFields. rewrite Esec. simpl.
    rewrite !elem_of_cons, elem_of_nil in Hsec.
    destruct Hsec as [-> | [-> | [-> | []]]]; reflexivity. }
  intros k Hk. destruct (get_Wifi (wifiFields data)) as (G1 & G2 & G3 & G4).
  assert (propertiesRead (lit "wifi") = ["security"; "ssid"; "password"; "hidden"])
    as Hprops by reflexivity.
  rewrite Hprops, !elem_of_cons, elem_of_nil in Hk.
  destruct Hk as [-> | [-> | [-> | [-> | []]]]].
  - by rewrite G2, Hname.
  - rewrite G1. unfold wifiFields. by rewrite Es.
  - rewrite G3. unfold wifiFields; simpl.
    by destruct (get data "password").
  - rewrite G4. unfold wifiFields; simpl.
    by destruct (get data "hidden").
Qed.

(** X21. Every object that [wifiSchema] accepts is encoded as the Wifi template
    over its own fields, with a non-empty ssid and [WPA], [WEP] or [nopass]
    for the security: after validation no field comes out as
    [undefined]. Conversely the object of a field set passes the schema
    exactly when its ssid is not empty. *)
Theorem wifiSchema_encodes (data : gmap string value) (f : Wifi.t) :
  (wifiSchema data = true →
   Wifi.ssid (wifiFields data) ≠ []
   ∧ generateQRData (lit "wifi") data
     = Return (Str (lit "WIFI:T:" ++ Wifi.name (Wifi.security (wifiFields data))
                    ++ lit ";S:" ++ Wifi.ssid (wifiFields data)
                    ++ lit ";P:" ++ orEmpty (Wifi.password (wifiFields data))
                    ++ lit ";H:" ++ hiddenText (Wifi.hidden (wifiFields data))
                    ++ lit ";;")))
  ∧ (wifiSchema (Wifi.data f) = true ↔ Wifi.ssid f ≠ []).
Proof.
  split.
  - intros [Hssid Hget]%wifiSchema_fields. split; [exact Hssid|].
    rewrite <- encode_wifi_fields. by apply generateQRData_ext.
  - unfold wifiSchema. destruct (get_Wifi f) as (-> & -> & -> & ->).
    rewrite !andb_true_iff, !bool_decide_eq_true. split.
    + intros [[[Hlen _] _] _]. destruct (Wifi.ssid f); simpl in Hlen; [lia | done].
    + intros Hne. split_and!.
      * destruct (Wifi.ssid f); simpl; [done | lia].
      * by destruct (Wifi.password f).
      * destruct (Wifi.security f); simpl; rewrite !elem_of_cons; auto.
      * by destruct (Wifi.hidden f).
Qed.

Lemma wifiSchema_encodes_witness :
  Wifi.ssid (wifiFields (list_to_map [("ssid", Str (lit "Home"));
                                       ("security", Str (lit "WEP"))])) ≠ []
  ∧ generateQRData (lit "wifi")
      (list_to_map [("ssid", Str (lit "Home")); ("security", Str (lit "WEP"))])
    = Return (Str (lit "WIFI:T:WEP;S:Home;P:;H:false;;")).
Proof.
  pose proof (proj1 (wifiSchema_encodes
                       (list_to_map [("ssid", Str (lit "Home"));
                                     ("security", Str (lit "WEP"))])
                       {| Wifi.ssid := []; Wifi.password := None;
                          Wifi.security := Wifi.WPA; Wifi.hidden := None |}))
    as Hwifi.
  vm_compute in Hwifi. vm_compute. apply Hwifi. reflexivity.
Defined.

(** X22. The contact form validates as soon as a first name is typed in,
    whatever the checks behind [.email()] and [.url()] say of the empty
    string, and the card then has its five other lines empty. *)
Theorem contact_first_name_suffices (isEmail isUrl : jsstring → bool)
    (firstName : jsstring) :
  firstName ≠ [] →
  contactSchema isEmail isUrl (contactFirstNameOnly firstName) = true
  ∧ generateQRData (lit "contact") (contactFirstNameOnly firstName)
    = Return (Str (lit "BEGIN:VCARD" ++ nl ++ lit "VERSION:3.0" ++ nl
                   ++ lit "FN:" ++ firstName ++ lit " "
                   ++ nl ++ lit "ORG:" ++ nl ++ lit "TEL:"
                   ++ nl ++ lit "EMAIL:" ++ nl ++ lit "URL:"
                   ++ nl ++ lit "END:VCARD")).
Proof.
  intros Hne. split; [|by switch].
  unfold contactSchema.
  change (get (contactFirstNameOnly firstName) "firstName") with (Str firstName).
  change (get (contactFirstNameOnly firstName) "email") with (Str []).
  change (get (contactFirstNameOnly firstName) "url") with (Str []).
  simpl. rewrite !orb_true_r, !andb_true_r.
  apply bool_decide_eq_true. destruct firstName; simpl; [done | lia].
Qed.

Lemma contact_first_name_suffices_witness :
  contactSchema (λ _, false) (λ _, false) (contactFirstNameOnly (lit "John")) = true
  ∧ generateQRData (lit "contact") (contactFirstNameOnly (lit "John"))
    = Return (Str (lit "BEGIN:VCARD" ++ nl ++ lit "VERSION:3.0" ++ nl
                   ++ lit "FN:" ++ lit "John" ++ lit " "
                   ++ nl ++ lit "ORG:" ++ nl ++ lit "TEL:"
                   ++ nl ++ lit "EMAIL:" ++ nl ++ lit "URL:"
                   ++ nl ++ lit "END:VCARD")).
Proof.
  apply (contact_first_name_suffices (λ _, false) (λ _, false) (lit "John")).
  discriminate.
Defined.

(** ** The theme toggle *)

(** X23. Whatever the theme was, the toggle sets [light] or [dark]; on these two
    it is an involution, and a third theme (such as [system]) is left for
    [light] and not come back to. *)
Theorem toggleTheme_light_dark (theme : jsstring) :
  (toggleTheme theme = lit "light" ∨ toggleTheme theme = lit "dark")
  ∧ toggleTheme (toggleTheme (toggleTheme theme)) = toggleTheme theme
  ∧ (theme = lit "light" ∨ theme = lit "dark" →
     toggleTheme (toggleTheme theme) = theme)
  ∧ (theme ≠ lit "light" → toggleTheme theme = lit "light").
Proof.
  unfold toggleTheme. split_and!.
  - case_decide; auto.
  - by repeat (case_decide; subst; try done).
  - intros [-> | ->]; reflexivity.
  - intros Hne. by rewrite decide_False.
Qed.

Lemma toggleTheme_light_dark_witness :
  toggleTheme (toggleTheme (lit "dark")) = lit "dark"
  ∧ toggleTheme (lit "system") = lit "light".
Proof.
  split.
  - apply (proj1 (proj2 (proj2 (toggleTheme_light_dark (lit "dark"))))).
    right. reflexivity.
  - apply (proj2 (proj2 (proj2 (toggleTheme_light_dark (lit "system"))))).
    intros Heq. vm_compute in Heq. discriminate Heq.
Defined.
